(** * Horizon OS result codes (src/core/hle/result.h)

    A shallow embedding of the [Result] / [ResultRange] / [ResultVal]
    types and of the result-propagation macros of [core/hle/result.h],
    together with the properties of the packed 32-bit error word, of the
    [ResultVal] accessors and of the scoped result guards. *)

From Stdlib Require Import ZArith List Bool String Lia.
Import ListNotations.

Local Open Scope Z_scope.

(** ** Machine integers (common/common_types.h) *)

(** [u32] values are integers; arithmetic that can leave the 32-bit range
    is wrapped explicitly with [wrap32]. *)
Definition u32 : Type := Z.

Definition wrap32 (x : Z) : u32 := x mod 2 ^ 32.

Definition is_u32 (x : Z) : Prop := 0 <= x < 2 ^ 32.

(** ** Bit fields (common/bit_field.h) *)

Module BitField.

(** Modelled from the spec: [common/bit_field.h] is not part of the
    sources at hand.  A [BitField<Position, Bits, T>] is a window of
    [Bits] bits starting at bit [Position] of the 32-bit storage word it
    shares with the other members of the union: [FormatValue] shifts a
    value into place and masks it to the window ("silent truncation
    matching bit masking"), [ExtractValue] (used by [Value()] and by the
    implicit conversion to [T]) masks the storage and shifts the window
    down ("explicit shift/mask accessor functions over a single unsigned
    32-bit integer"). *)
Section Field.

Variables position bits : Z.

Definition mask : u32 := Z.shiftl (Z.ones bits) position.

Definition FormatValue (value : Z) : u32 :=
  Z.land (wrap32 (Z.shiftl value position)) mask.

Definition ExtractValue (storage : u32) : Z :=
  Z.shiftr (Z.land storage mask) position.

End Field.

End BitField.

(** ** ErrorModule *)

Module ErrorModule.

(** [enum class ErrorModule : u32]: a value of the enumeration is a value
    of its underlying type; the enumerators are named constants. *)
Definition t : Type := u32.

Definition Common : t := 0.
Definition Kernel : t := 1.
Definition FS : t := 2.
Definition OS : t := 3.
Definition HTCS : t := 4.
Definition NCM : t := 5.
Definition DD : t := 6.
Definition LR : t := 8.
Definition Loader : t := 9.
Definition CMIF : t := 10.
Definition HIPC : t := 11.
Definition PM : t := 15.
Definition NS : t := 16.
Definition HTC : t := 18.
Definition NCMContent : t := 20.
Definition SM : t := 21.
Definition RO : t := 22.
Definition SDMMC : t := 24.
Definition OVLN : t := 25.
Definition SPL : t := 26.
Definition ETHC : t := 100.
Definition I2C : t := 101.
Definition GPIO : t := 102.
Definition UART : t := 103.
Definition Settings : t := 105.
Definition WLAN : t := 107.
Definition XCD : t := 108.
Definition NIFM : t := 110.
Definition Hwopus : t := 111.
Definition Bluetooth : t := 113.
Definition VI : t := 114.
Definition NFP : t := 115.
Definition Time : t := 116.
Definition FGM : t := 117.
Definition OE : t := 118.
Definition PCIe : t := 120.
Definition Friends : t := 121.
Definition BCAT : t := 122.
Definition SSLSrv : t := 123.
Definition Account : t := 124.
Definition News : t := 125.
Definition Mii : t := 126.
Definition NFC : t := 127.
Definition AM : t := 128.
Definition PlayReport : t := 129.
Definition AHID : t := 130.
Definition Qlaunch : t := 132.
Definition PCV : t := 133.
Definition OMM : t := 134.
Definition BPC : t := 135.
Definition PSM : t := 136.
Definition NIM : t := 137.
Definition PSC : t := 138.
Definition TC : t := 139.
Definition USB : t := 140.
Definition NSD : t := 141.
Definition PCTL : t := 142.
Definition BTM : t := 143.
Definition ETicket : t := 145.
Definition NGC : t := 146.
Definition ERPT : t := 147.
Definition APM : t := 148.
Definition Profiler : t := 150.
Definition ErrorUpload : t := 151.
Definition Audio : t := 153.
Definition NPNS : t := 154.
Definition NPNSHTTPSTREAM : t := 155.
Definition ARP : t := 157.
Definition SWKBD : t := 158.
Definition BOOT : t := 159.
Definition NFCMifare : t := 161.
Definition UserlandAssert : t := 162.
Definition Fatal : t := 163.
Definition NIMShop : t := 164.
Definition SPSM : t := 165.
Definition BGTC : t := 167.
Definition UserlandCrash : t := 168.
Definition SREPO : t := 180.
Definition Dauth : t := 181.
Definition HID : t := 202.
Definition LDN : t := 203.
Definition Irsensor : t := 205.
Definition Capture : t := 206.
Definition Manu : t := 208.
Definition ATK : t := 209.
Definition GRC : t := 212.
Definition Migration : t := 216.
Definition MigrationLdcServ : t := 217.
Definition GeneralWebApplet : t := 800.
Definition WifiWebAuthApplet : t := 809.
Definition WhitelistedApplet : t := 810.
Definition ShopN : t := 811.

(** All the enumerators, in declaration order. *)
Definition enumerators : list t :=
  [ Common; Kernel; FS; OS; HTCS; NCM; DD; LR; Loader; CMIF; HIPC; PM; NS;
    HTC; NCMContent; SM; RO; SDMMC; OVLN; SPL; ETHC; I2C; GPIO; UART;
    Settings; WLAN; XCD; NIFM; Hwopus; Bluetooth; VI; NFP; Time; FGM; OE;
    PCIe; Friends; BCAT; SSLSrv; Account; News; Mii; NFC; AM; PlayReport;
    AHID; Qlaunch; PCV; OMM; BPC; PSM; NIM; PSC; TC; USB; NSD; PCTL; BTM;
    ETicket; NGC; ERPT; APM; Profiler; ErrorUpload; Audio; NPNS;
    NPNSHTTPSTREAM; ARP; SWKBD; BOOT; NFCMifare; UserlandAssert; Fatal;
    NIMShop; SPSM; BGTC; UserlandCrash; SREPO; Dauth; HID; LDN; Irsensor;
    Capture; Manu; ATK; GRC; Migration; MigrationLdcServ; GeneralWebApplet;
    WifiWebAuthApplet; WhitelistedApplet; ShopN ].

End ErrorModule.

(** ** Result *)

(** [union Result { u32 raw; BitField<0, 9, ErrorModule> module;
    BitField<9, 13, u32> description; }]: one 32-bit storage word, seen
    either whole or through the two bit-field windows.  [Result_of_raw]
    is the constructor [explicit Result(u32 raw_)]. *)
Record Result : Type := Result_of_raw { raw : u32 }.

Definition module_position : Z := 0.
Definition module_bits : Z := 9.
Definition description_position : Z := 9.
Definition description_bits : Z := 13.

(** The [module] member read as a value ([module.Value()]). *)
Definition module (r : Result) : ErrorModule.t :=
  BitField.ExtractValue module_position module_bits (raw r).

(** The [description] member read as a value. *)
Definition description (r : Result) : u32 :=
  BitField.ExtractValue description_position description_bits (raw r).

(** [constexpr Result(ErrorModule module_, u32 description_)]. *)
Definition Result_of_fields (module_ : ErrorModule.t) (description_ : u32) : Result :=
  Result_of_raw
    (Z.lor (BitField.FormatValue module_position module_bits module_)
           (BitField.FormatValue description_position description_bits description_)).

Definition IsSuccess (r : Result) : bool := raw r =? 0.

Definition IsError (r : Result) : bool := negb (IsSuccess r).

Definition IsFailure (r : Result) : bool := negb (IsSuccess r).

Definition GetInnerValue (r : Result) : u32 :=
  Z.lor (module r) (wrap32 (Z.shiftl (description r) module_bits)).

Definition Includes (r result : Result) : bool :=
  GetInnerValue r =? GetInnerValue result.

(** [operator==] and [operator!=] on [Result]. *)
Definition Result_eqb (a b : Result) : bool := raw a =? raw b.

Definition Result_neqb (a b : Result) : bool := negb (Result_eqb a b).

Definition ResultSuccess : Result := Result_of_raw 0.

(** [UINT32_MAX]. *)
Definition ResultUnknown : Result := Result_of_raw (2 ^ 32 - 1).

(** ** ResultRange *)

Record ResultRange : Type := Build_ResultRange
  { code : Result;
    description_end : u32 }.

(** [consteval ResultRange(ErrorModule module, u32 description_start,
    u32 description_end_)]. *)
Definition ResultRange_of (module_ : ErrorModule.t)
    (description_start description_end_ : u32) : ResultRange :=
  Build_ResultRange (Result_of_fields module_ description_start) description_end_.

(** [constexpr operator Result() const]. *)
Definition ResultRange_to_Result (range : ResultRange) : Result := code range.

Definition ResultRange_Includes (range : ResultRange) (other : Result) : bool :=
  (module (code range) =? module other)
  && (description (code range) <=? description other)
  && (description other <=? description_end range).

(** ** Assertions (common/assert.h) *)

(** Modelled from the spec: [common/assert.h] is not part of the sources
    at hand.  A failed [ASSERT_MSG] is a contract violation: it "fails
    fatally (assertion failure, not a recoverable error)", so the
    computation that runs it ends there with the message and produces no
    value. *)
Inductive Checked (A : Type) : Type :=
| Ok (a : A)
| AssertionFailure (msg : string).

Arguments Ok {A} a.
Arguments AssertionFailure {A} msg.

Definition ASSERT_MSG (cond : bool) (msg : string) : Checked unit :=
  if cond then Ok tt else AssertionFailure msg.

Definition and_then {A B : Type} (c : Checked A) (k : A -> Checked B) : Checked B :=
  match c with
  | Ok a => k a
  | AssertionFailure msg => AssertionFailure msg
  end.

Notation "c ;; k" := (and_then c (fun _ => k))
  (at level 61, right associativity).

(** ** Common::Expected (common/expected.h) *)

Module Common.

(** Modelled from the spec: [common/expected.h] is not part of the
    sources at hand.  [Expected<T, E>] is "a tagged union (expected) of
    either a successfully produced value of type T or a failure"; an
    [Expected] built from [Common::Unexpected(e)] holds the error [e].
    [value()] hands out the held value and is a contract violation when
    there is none; [value_or(v)] falls back to [v]. *)
Inductive Expected (T E : Type) : Type :=
| Value (val : T)
| Unexpected (err : E).

Arguments Value {T E} val.
Arguments Unexpected {T E} err.

Definition has_value {T E : Type} (e : Expected T E) : bool :=
  match e with
  | Value _ => true
  | Unexpected _ => false
  end.

Definition value {T E : Type} (e : Expected T E) : Checked T :=
  match e with
  | Value val => Ok val
  | Unexpected _ => AssertionFailure "Expected holds no value"
  end.

Definition value_or {T E : Type} (e : Expected T E) (v : T) : T :=
  match e with
  | Value val => val
  | Unexpected _ => v
  end.

End Common.

(** ** ResultVal *)

Section ResultValDefs.

Context {T : Type}.

Record ResultVal : Type := Build_ResultVal
  { expected : Common.Expected T Result }.

(** [constexpr ResultVal(Result code)]. *)
Definition ResultVal_of_code (code_ : Result) : ResultVal :=
  Build_ResultVal (Common.Unexpected code_).

(** [constexpr ResultVal(ResultRange range)]: the range is converted to
    its [Result]. *)
Definition ResultVal_of_range (range : ResultRange) : ResultVal :=
  Build_ResultVal (Common.Unexpected (ResultRange_to_Result range)).

(** [template <typename U> constexpr ResultVal(U&& val)]: the forwarding
    constructor, after which the object holds [val].  Overload
    resolution selects it for an argument that is neither a [Result] nor
    a [ResultRange]; see [ResultVal_construct]. *)
Definition ResultVal_of_value (val : T) : ResultVal :=
  Build_ResultVal (Common.Value val).

(** [explicit operator bool()]. *)
Definition to_bool (rv : ResultVal) : bool := Common.has_value (expected rv).

Definition Code (rv : ResultVal) : Result :=
  match expected rv with
  | Common.Value _ => ResultSuccess
  | Common.Unexpected err => err
  end.

Definition Succeeded (rv : ResultVal) : bool := Common.has_value (expected rv).

Definition Failed (rv : ResultVal) : bool := negb (Common.has_value (expected rv)).

Definition Unwrap (rv : ResultVal) : Checked T :=
  ASSERT_MSG (Succeeded rv) "Tried to Unwrap empty ResultVal" ;;
  Common.value (expected rv).

Definition ValueOr (rv : ResultVal) (v : T) : T :=
  Common.value_or (expected rv) v.

End ResultValDefs.

Arguments ResultVal T : clear implicits.

(** [R_SUCCEEDED] / [R_FAILED] on a [Result]. *)
Definition R_SUCCEEDED (res : Result) : bool := IsSuccess res.
Definition R_FAILED (res : Result) : bool := IsFailure res.

(** ** Scoped result guards and the propagation macros *)

(** A closure or statement of the client function, known by its label. *)
Definition action : Type := string.

Bind Scope string_scope with action.

(** What [decltype(__TmpCurrentResultReference)] is at a program point:
    the namespace-scope [constexpr inline Result] (a [const Result]), or
    a [Result&] declared by [DECLARE_CURRENT_RESULT_REFERENCE_AND_STORAGE]
    and bound to a [Result] local of the activation. *)
Inductive CurrentResultReference : Type :=
| GlobalConst
| Ref (cell : nat).

(** [ResultImpl::ScopedResultGuard<EvaluateResult, F>]. *)
Record ScopedResultGuard : Type := Build_ScopedResultGuard
  { EvaluateResult : Result -> bool;
    m_ref : nat;
    m_f : action }.

Definition EvaluateResultSuccess (r : Result) : bool := R_SUCCEEDED r.
Definition EvaluateResultFailure (r : Result) : bool := R_FAILED r.

(** What an activation does that can be observed: the statements it runs,
    and each guard destructor with the value its [m_ref] had at that
    moment and whether [m_f()] was called. *)
Inductive event : Type :=
| Exec (a : action)
| GuardExit (g : ScopedResultGuard) (seen : Result) (called : bool).

(** The [Result] locals of an activation and what it has done so far. *)
Record frame : Type := Build_frame
  { store : list Result;
    trace : list event }.

(** A block scope: what the name [__TmpCurrentResultReference] denotes,
    whether this block itself declares it, and the guards constructed in
    the block, most recent first. *)
Record scope : Type := Build_scope
  { current : CurrentResultReference;
    declared_here : bool;
    guards : list ScopedResultGuard }.

Definition read (cell : nat) (st : list Result) : Result := nth cell st ResultSuccess.

Fixpoint write (cell : nat) (v : Result) (st : list Result) {struct st} : list Result :=
  match st, cell with
  | [], _ => []
  | _ :: st', O => v :: st'
  | x :: st', S cell' => x :: write cell' v st'
  end.

(** The statements a function body is made of once the macros are
    expanded.  [k] is the rest of the enclosing block. *)
Inductive statements : Type :=
| End
| Stmt (a : action) (k : statements)
| Return (r : Result)
| DECLARE_CURRENT_RESULT_REFERENCE_AND_STORAGE (k : statements)
| ON_RESULT_RETURN_IMPL (EvaluateResult : Result -> bool) (f : action) (k : statements)
| UpdateCurrentResultReference (result : Result) (k : statements)
| Block (body : statements) (k : statements).

Definition ON_RESULT_FAILURE_2 (f : action) (k : statements) : statements :=
  ON_RESULT_RETURN_IMPL EvaluateResultFailure f k.

Definition ON_RESULT_FAILURE (f : action) (k : statements) : statements :=
  DECLARE_CURRENT_RESULT_REFERENCE_AND_STORAGE (ON_RESULT_FAILURE_2 f k).

Definition ON_RESULT_SUCCESS_2 (f : action) (k : statements) : statements :=
  ON_RESULT_RETURN_IMPL EvaluateResultSuccess f k.

Definition ON_RESULT_SUCCESS (f : action) (k : statements) : statements :=
  DECLARE_CURRENT_RESULT_REFERENCE_AND_STORAGE (ON_RESULT_SUCCESS_2 f k).

Definition R_RETURN (res_expr : Result) (k : statements) : statements :=
  Block (UpdateCurrentResultReference res_expr (Return res_expr)) k.

Definition R_SUCCEED (k : statements) : statements := R_RETURN ResultSuccess k.

Definition R_THROW (res_expr : Result) (k : statements) : statements := R_RETURN res_expr k.

Definition R_UNLESS (expr : bool) (res : Result) (k : statements) : statements :=
  Block (if negb expr then R_THROW res End else End) k.

Definition R_TRY (res_expr : Result) (k : statements) : statements :=
  Block (if R_FAILED res_expr then R_THROW res_expr End else End) k.

Definition R_SUCCEED_IF (expr : bool) (k : statements) : statements :=
  R_UNLESS (negb expr) ResultSuccess k.

Definition CASCADE_CODE (source : Result) (k : statements) : statements :=
  Block (if IsError source then Return source else End) k.

(** [CASCADE_RESULT(target, source); k]: [k] is the rest of the block
    with [target] bound. *)
Definition CASCADE_RESULT {T : Type} (source : ResultVal T) (k : T -> statements) : statements :=
  Block (if Failed source then Return (Code source) else End)
        (match expected source with
         | Common.Value val => k val
         | Common.Unexpected _ => End
         end).

(** How control leaves a piece of code: it reaches the closing brace, a
    [return] was executed, or the code is rejected by the compiler. *)
Inductive flow : Type :=
| Next
| Returned (r : Result)
| IllFormed.

Definition log (e : event) (fr : frame) : frame :=
  Build_frame (store fr) (trace fr ++ [e]).

(** [~ScopedResultGuard()]. *)
Definition destroy (fr : frame) (g : ScopedResultGuard) : frame :=
  let seen := read (m_ref g) (store fr) in
  log (GuardExit g seen (EvaluateResult g seen)) fr.

(** Leaving a block destroys its guards in reverse order of
    construction. *)
Definition leave (sc : scope) (fr : frame) : frame :=
  fold_left destroy (guards sc) fr.

(** The scope of a nested block on entry. *)
Definition enter (sc : scope) : scope :=
  Build_scope (current sc) false [].

(** [DECLARE_CURRENT_RESULT_REFERENCE_AND_STORAGE]: two new [Result]
    locals, [PrevRef_] (a copy of what the name denoted so far) and
    [__tmp_result_] ([ResultSuccess]), and a new [Result&] bound to the
    first when the name already denoted a [Result&], to the second
    otherwise. *)
Definition declare (sc : scope) (fr : frame) : scope * frame :=
  let n := List.length (store fr) in
  let HasPrevRef :=
    match current sc with
    | GlobalConst => false
    | Ref _ => true
    end in
  let PrevRef :=
    match current sc with
    | GlobalConst => ResultSuccess
    | Ref cell => read cell (store fr)
    end in
  let tmp_result := ResultSuccess in
  (Build_scope (Ref (if HasPrevRef then n else S n)) true (guards sc),
   Build_frame (store fr ++ [PrevRef; tmp_result]) (trace fr)).

(** [ResultImpl::UpdateCurrentResultReference<decltype(ref)>(ref, result)]:
    the [Result&] specialization assigns, the [const Result] one does
    nothing. *)
Definition update (ref : CurrentResultReference) (result : Result) (fr : frame) : frame :=
  match ref with
  | GlobalConst => fr
  | Ref cell => Build_frame (write cell result (store fr)) (trace fr)
  end.

(** Runs [c] in the block whose scope is [sc], up to the closing brace
    of the block or to a [return]; the guards still to be destroyed are
    those of the scope that is returned. *)
Fixpoint exec (c : statements) (sc : scope) (fr : frame) : flow * scope * frame :=
  match c with
  | End => (Next, sc, fr)
  | Stmt a k => exec k sc (log (Exec a) fr)
  | Return r => (Returned r, sc, fr)
  | DECLARE_CURRENT_RESULT_REFERENCE_AND_STORAGE k =>
      if declared_here sc then (IllFormed, sc, fr)
      else let '(sc', fr') := declare sc fr in exec k sc' fr'
  | ON_RESULT_RETURN_IMPL ev f k =>
      match current sc with
      | GlobalConst => (IllFormed, sc, fr)
      | Ref cell =>
          exec k (Build_scope (current sc) (declared_here sc)
                    (Build_ScopedResultGuard ev cell f :: guards sc)) fr
      end
  | UpdateCurrentResultReference result k =>
      exec k sc (update (current sc) result fr)
  | Block body k =>
      let '(fl, sc_body, fr_body) := exec body (enter sc) fr in
      let fr' := leave sc_body fr_body in
      match fl with
      | Next => exec k sc fr'
      | Returned r => (Returned r, sc, fr')
      | IllFormed => (IllFormed, sc, fr')
      end
  end.

(** [c] is the rest of a block: run it and leave the block. *)
Definition exec_block (c : statements) (sc : scope) (fr : frame) : flow * frame :=
  let '(fl, sc', fr') := exec c sc fr in (fl, leave sc' fr').

(** One activation of a function whose body is [body]. *)
Definition call (body : statements) : flow * list event :=
  let '(fl, fr) := exec_block body (Build_scope GlobalConst false []) (Build_frame [] []) in
  (fl, trace fr).

(** Every [UpdateCurrentResultReference] of [c] is the one of an
    [R_RETURN]: it is followed by the [return] of the same value. *)
Fixpoint macro_expansion (c : statements) : bool :=
  match c with
  | End => true
  | Stmt _ k => macro_expansion k
  | Return _ => true
  | DECLARE_CURRENT_RESULT_REFERENCE_AND_STORAGE k => macro_expansion k
  | ON_RESULT_RETURN_IMPL _ _ k => macro_expansion k
  | UpdateCurrentResultReference result k =>
      match k with
      | Return r => Result_eqb result r
      | _ => false
      end
  | Block body k => macro_expansion body && macro_expansion k
  end.

(** [c] leaves through [R_RETURN] / [R_THROW] only and does not declare
    the current result reference again. *)
Fixpoint returns_through_R_RETURN (c : statements) : bool :=
  match c with
  | End => true
  | Stmt _ k => returns_through_R_RETURN k
  | Return _ => false
  | DECLARE_CURRENT_RESULT_REFERENCE_AND_STORAGE _ => false
  | ON_RESULT_RETURN_IMPL _ _ k => returns_through_R_RETURN k
  | UpdateCurrentResultReference result k =>
      match k with
      | Return r => Result_eqb result r
      | _ => false
      end
  | Block body k => returns_through_R_RETURN body && returns_through_R_RETURN k
  end.

(** Some guard of [c] has the closure [f]. *)
Fixpoint registers (f : action) (c : statements) : bool :=
  match c with
  | End => false
  | Stmt _ k => registers f k
  | Return _ => false
  | DECLARE_CURRENT_RESULT_REFERENCE_AND_STORAGE k => registers f k
  | ON_RESULT_RETURN_IMPL _ f' k => String.eqb f' f || registers f k
  | UpdateCurrentResultReference _ k => registers f k
  | Block body k => registers f body || registers f k
  end.

(** The event is the destructor of a guard whose closure is [f]. *)
Definition exit_of (f : action) (e : event) : bool :=
  match e with
  | Exec _ => false
  | GuardExit g _ _ => String.eqb (m_f g) f
  end.

(** What the destructors of a list of guards log when the [Result]
    locals are [st]. *)
Definition exits (st : list Result) (gs : list ScopedResultGuard) : list event :=
  map (fun g => GuardExit g (read (m_ref g) st) (EvaluateResult g (read (m_ref g) st))) gs.

(** The event is compatible with an activation that returns [r]: a guard
    destructor called its closure exactly as its predicate says, and saw
    either [ResultSuccess] or [r]. *)
Definition sees (r : Result) (e : event) : Prop :=
  match e with
  | Exec _ => True
  | GuardExit g seen called =>
      called = EvaluateResult g seen /\ (seen = ResultSuccess \/ seen = r)
  end.

(** The event is the destructor of a guard whose closure is one of
    [fs]. *)
Definition exit_among (fs : list action) (e : event) : bool :=
  existsb (fun f => exit_of f e) fs.

(** The value type [T] of a [ResultVal<T>], as overload resolution tells
    it apart when a [ResultVal<T>] is built from one value of type [T]:
    [Result], [ResultRange], or any other type. *)
Inductive value_type : Type :=
| T_Result
| T_ResultRange
| T_other (T : Type).

Definition type_of (ty : value_type) : Type :=
  match ty with
  | T_Result => Result
  | T_ResultRange => ResultRange
  | T_other T => T
  end.

(** [ResultVal<T>(v)] for a value [v] of type [T].  The non-template
    constructors [ResultVal(Result)] and [ResultVal(ResultRange)] match
    a [Result] and a [ResultRange] exactly and are preferred to the
    forwarding template, which takes every other argument. *)
Definition ResultVal_construct (ty : value_type) : type_of ty -> ResultVal (type_of ty) :=
  match ty with
  | T_Result => fun v => ResultVal_of_code v
  | T_ResultRange => fun v => ResultVal_of_range v
  | T_other T => fun v => ResultVal_of_value v
  end.

(** The [Result] local to which [DECLARE_CURRENT_RESULT_REFERENCE_AND_STORAGE]
    binds the new reference when it runs in scope [sc] and frame [fr]. *)
Definition next_reference (sc : scope) (fr : frame) : nat :=
  if match current sc with
     | GlobalConst => false
     | Ref _ => true
     end
  then List.length (store fr) else S (List.length (store fr)).

(** The reference named by [__TmpCurrentResultReference] at the
    [R_RETURN] that makes [c] return: [Some ref] when the run of [c] in
    scope [sc] ends with [UpdateCurrentResultReference(ref, r); return r;],
    [None] when [c] does not return or leaves through a plain
    [return]. *)
Fixpoint return_reference (c : statements) (sc : scope) (fr : frame)
    : option CurrentResultReference :=
  match c with
  | End => None
  | Stmt a k => return_reference k sc (log (Exec a) fr)
  | Return _ => None
  | DECLARE_CURRENT_RESULT_REFERENCE_AND_STORAGE k =>
      if declared_here sc then None
      else let '(sc', fr') := declare sc fr in return_reference k sc' fr'
  | ON_RESULT_RETURN_IMPL ev f k =>
      match current sc with
      | GlobalConst => None
      | Ref cell =>
          return_reference k (Build_scope (current sc) (declared_here sc)
                                (Build_ScopedResultGuard ev cell f :: guards sc)) fr
      end
  | UpdateCurrentResultReference result k =>
      match k with
      | Return r => if Result_eqb result r then Some (current sc) else None
      | _ => return_reference k sc (update (current sc) result fr)
      end
  | Block body k =>
      let '(fl, sc_body, fr_body) := exec body (enter sc) fr in
      match fl with
      | Next => return_reference k sc (leave sc_body fr_body)
      | Returned _ => return_reference body (enter sc) fr
      | IllFormed => None
      end
  end.

(** The value a [Result] local introduced by a declaration in scope
    [sc] starts from when it is [PrevRef_]: a copy of what the name
    denoted so far. *)
Definition initial_value (sc : scope) (fr : frame) : Result :=
  match current sc with
  | GlobalConst => ResultSuccess
  | Ref cell => read cell (store fr)
  end.

(** * Properties of the packed word *)

Section BitFieldFacts.

Lemma testbit_wrap32 (x i : Z) :
  0 <= i -> Z.testbit (wrap32 x) i = (i <? 32) && Z.testbit x i.
Proof.
  intros Hi. unfold wrap32. apply Z.testbit_mod_pow2. lia.
Qed.

Lemma testbit_mask (position bits i : Z) :
  0 <= position -> 0 <= bits -> 0 <= i ->
  Z.testbit (BitField.mask position bits) i
  = (position <=? i) && (i <? position + bits).
Proof.
  intros Hp Hb Hi. unfold BitField.mask.
  rewrite Z.shiftl_spec by assumption.
  destruct (Z.leb_spec position i) as [Hle | Hlt].
  - rewrite Z.testbit_ones_nonneg by lia.
    destruct (Z.ltb_spec (i - position) bits), (Z.ltb_spec i (position + bits));
      simpl; auto; lia.
  - rewrite Z.testbit_neg_r by lia. reflexivity.
Qed.

Lemma testbit_FormatValue (position bits value i : Z) :
  0 <= position -> 0 <= bits -> 0 <= i ->
  Z.testbit (BitField.FormatValue position bits value) i
  = (position <=? i) && (i <? position + bits) && (i <? 32)
    && Z.testbit value (i - position).
Proof.
  intros Hp Hb Hi. unfold BitField.FormatValue.
  rewrite Z.land_spec, testbit_mask, testbit_wrap32 by assumption.
  rewrite Z.shiftl_spec by assumption.
  destruct (position <=? i), (i <? position + bits), (i <? 32),
    (Z.testbit value (i - position)); reflexivity.
Qed.

Lemma testbit_ExtractValue (position bits storage i : Z) :
  0 <= position -> 0 <= bits -> 0 <= i ->
  Z.testbit (BitField.ExtractValue position bits storage) i
  = (i <? bits) && Z.testbit storage (i + position).
Proof.
  intros Hp Hb Hi. unfold BitField.ExtractValue.
  rewrite Z.shiftr_spec, Z.land_spec, testbit_mask by lia.
  destruct (Z.leb_spec position (i + position)); try lia.
  destruct (Z.ltb_spec (i + position) (position + bits)), (Z.ltb_spec i bits);
    try lia; simpl; rewrite ?andb_true_r, ?andb_false_r; reflexivity.
Qed.

(** The value read through a window is the storage shifted down and
    reduced modulo the width of the window. *)
Lemma ExtractValue_mod (position bits storage : Z) :
  0 <= position -> 0 <= bits ->
  BitField.ExtractValue position bits storage
  = Z.shiftr storage position mod 2 ^ bits.
Proof.
  intros Hp Hb. apply Z.bits_inj'. intros i Hi.
  rewrite testbit_ExtractValue, Z.testbit_mod_pow2, Z.shiftr_spec by assumption.
  reflexivity.
Qed.

Lemma testbit_small (n x i : Z) :
  0 <= x < 2 ^ n -> n <= i -> Z.testbit x i = false.
Proof.
  intros Hx Hi.
  destruct (Z.ltb_spec n 0) as [Hn | Hn].
  - rewrite Z.pow_neg_r in Hx by assumption. lia.
  - rewrite <- (Z.mod_small x (2 ^ n)) by assumption.
    apply Z.mod_pow2_bits_high. lia.
Qed.

End BitFieldFacts.

Section ResultFacts.

Lemma testbit_raw_of_fields (m d i : Z) :
  0 <= i ->
  Z.testbit (raw (Result_of_fields m d)) i
  = (i <? 9) && Z.testbit m i
    || (9 <=? i) && (i <? 22) && Z.testbit d (i - 9).
Proof.
  intros Hi. unfold Result_of_fields. cbn [raw].
  rewrite Z.lor_spec.
  unfold module_position, module_bits, description_position, description_bits.
  rewrite !testbit_FormatValue by lia.
  replace (i - 0) with i by lia.
  destruct (Z.leb_spec 0 i), (Z.ltb_spec i (0 + 9)), (Z.ltb_spec i 9),
    (Z.leb_spec 9 i), (Z.ltb_spec i (9 + 13)), (Z.ltb_spec i 22),
    (Z.ltb_spec i 32); try lia; simpl; rewrite ?orb_false_r; reflexivity.
Qed.

Lemma testbit_module (r : Result) (i : Z) :
  0 <= i -> Z.testbit (module r) i = (i <? 9) && Z.testbit (raw r) i.
Proof.
  intros Hi. unfold module, module_position, module_bits.
  rewrite testbit_ExtractValue by lia. now rewrite Z.add_0_r.
Qed.

Lemma testbit_description (r : Result) (i : Z) :
  0 <= i ->
  Z.testbit (description r) i = (i <? 13) && Z.testbit (raw r) (i + 9).
Proof.
  intros Hi. unfold description, description_position, description_bits.
  now rewrite testbit_ExtractValue by lia.
Qed.

(** Reading a field back gives the constructor argument truncated to
    the width of the field. *)
Lemma module_of_fields (m d : Z) :
  module (Result_of_fields m d) = m mod 2 ^ 9.
Proof.
  apply Z.bits_inj'. intros i Hi.
  rewrite testbit_module, testbit_raw_of_fields, Z.testbit_mod_pow2 by lia.
  destruct (Z.ltb_spec i 9), (Z.leb_spec 9 i); try lia; simpl;
    rewrite ?orb_false_r; reflexivity.
Qed.

Lemma description_of_fields (m d : Z) :
  description (Result_of_fields m d) = d mod 2 ^ 13.
Proof.
  apply Z.bits_inj'. intros i Hi.
  rewrite testbit_description, testbit_raw_of_fields, Z.testbit_mod_pow2 by lia.
  replace (i + 9 - 9) with i by lia.
  destruct (Z.ltb_spec i 13), (Z.ltb_spec (i + 9) 9), (Z.leb_spec 9 (i + 9)),
    (Z.ltb_spec (i + 9) 22); try lia; simpl; reflexivity.
Qed.

Lemma module_range (r : Result) : 0 <= module r < 2 ^ 9.
Proof.
  unfold module, module_position, module_bits.
  rewrite ExtractValue_mod by lia. apply Z.mod_pos_bound. lia.
Qed.

Lemma description_range (r : Result) : 0 <= description r < 2 ^ 13.
Proof.
  unfold description, description_position, description_bits.
  rewrite ExtractValue_mod by lia. apply Z.mod_pos_bound. lia.
Qed.

Lemma raw_of_fields_in_range (m d : Z) :
  0 <= m < 2 ^ 9 -> 0 <= d < 2 ^ 13 ->
  raw (Result_of_fields m d) = Z.lor m (Z.shiftl d 9).
Proof.
  intros Hm Hd. apply Z.bits_inj'. intros i Hi.
  rewrite testbit_raw_of_fields, Z.lor_spec, Z.shiftl_spec by lia.
  destruct (Z.ltb_spec i 9), (Z.leb_spec 9 i), (Z.ltb_spec i 22);
    try lia; simpl; rewrite ?orb_false_r.
  - rewrite (Z.testbit_neg_r d) by lia. now rewrite orb_false_r.
  - now rewrite (testbit_small 9 m i) by lia.
  - rewrite (testbit_small 9 m i) by lia.
    rewrite (testbit_small 13 d (i - 9)) by lia. reflexivity.
Qed.

Lemma GetInnerValue_low22 (r : Result) :
  GetInnerValue r = raw r mod 2 ^ 22.
Proof.
  apply Z.bits_inj'. intros i Hi. unfold GetInnerValue, module_bits.
  rewrite Z.lor_spec, testbit_module, testbit_wrap32, Z.shiftl_spec,
    Z.testbit_mod_pow2 by lia.
  destruct (Z.ltb_spec i 9) as [H9 | H9].
  - rewrite (Z.testbit_neg_r (description r)) by lia.
    destruct (Z.ltb_spec i 22); try lia.
    now rewrite andb_false_r, orb_false_r.
  - rewrite testbit_description by lia.
    replace (i - 9 + 9) with i by lia.
    destruct (Z.ltb_spec i 22), (Z.ltb_spec i 32), (Z.ltb_spec (i - 9) 13);
      try lia; reflexivity.
Qed.

(** The packed word restricted to its low 22 bits is determined by,
    and determines, the two fields. *)
Lemma low22_fields (r : Result) :
  raw r mod 2 ^ 22 = module r + 2 ^ 9 * description r.
Proof.
  unfold module, description, module_position, module_bits,
    description_position, description_bits.
  rewrite !ExtractValue_mod by lia.
  rewrite Z.shiftr_0_r, Z.shiftr_div_pow2 by lia.
  replace (2 ^ 22) with (2 ^ 9 * 2 ^ 13) by reflexivity.
  rewrite Z.rem_mul_r by lia. reflexivity.
Qed.

End ResultFacts.

Section ResultClaims.

Lemma IsSuccess_raw (r : Result) : IsSuccess r = true <-> raw r = 0.
Proof. unfold IsSuccess. apply Z.eqb_eq. Qed.

Lemma fields_of_zero (r : Result) :
  raw r = 0 -> module r = 0 /\ description r = 0.
Proof.
  intros H. unfold module, description, BitField.ExtractValue. rewrite H.
  split; reflexivity.
Qed.

Lemma not_ResultSuccess_raw (r : Result) : r <> ResultSuccess -> raw r <> 0.
Proof.
  destruct r as [x]. cbn. intros H Hx. apply H. now rewrite Hx.
Qed.

Lemma not_ResultSuccess_IsFailure (r : Result) :
  r <> ResultSuccess -> IsFailure r = true.
Proof.
  intros H. apply not_ResultSuccess_raw in H.
  unfold IsFailure, IsSuccess. now apply Z.eqb_neq in H; rewrite H.
Qed.

(** C1.  For a module [m] in [0, 511] and a description [d] in
    [0, 8191], the word built by [Result(m, d)] is [m | (d << 9)]: the
    module sits in the low 9 bits, the description in bits 9..21, every
    bit from 22 up is zero, and the two bit-fields read back [m] and
    [d].  In particular [Result(ErrorModule::FS, 42).raw] is
    [42 << 9 | 2], [FS] being 2. *)
Theorem Result_pack_unpack (m d : Z) :
  0 <= m <= 511 -> 0 <= d <= 8191 ->
  raw (Result_of_fields m d) = Z.lor m (Z.shiftl d 9)
  /\ Z.land (raw (Result_of_fields m d)) (Z.ones 9) = m
  /\ Z.land (Z.shiftr (raw (Result_of_fields m d)) 9) (Z.ones 13) = d
  /\ (forall i, 22 <= i -> Z.testbit (raw (Result_of_fields m d)) i = false)
  /\ is_u32 (raw (Result_of_fields m d))
  /\ module (Result_of_fields m d) = m
  /\ description (Result_of_fields m d) = d
  /\ ErrorModule.FS = 2
  /\ raw (Result_of_fields ErrorModule.FS 42) = Z.lor (Z.shiftl 42 9) 2.
Proof.
  intros Hm Hd.
  assert (Hmod : module (Result_of_fields m d) = m).
  { rewrite module_of_fields. apply Z.mod_small. lia. }
  assert (Hdesc : description (Result_of_fields m d) = d).
  { rewrite description_of_fields. apply Z.mod_small. lia. }
  assert (Hhigh : forall i, 22 <= i ->
                    Z.testbit (raw (Result_of_fields m d)) i = false).
  { intros i Hi. rewrite testbit_raw_of_fields by lia.
    destruct (Z.ltb_spec i 9), (Z.ltb_spec i 22); try lia;
      rewrite ?andb_false_r; reflexivity. }
  split; [apply raw_of_fields_in_range; lia|].
  split; [exact Hmod|].
  repeat split; try assumption; try reflexivity.
  - transitivity (description (Result_of_fields m d)); [|exact Hdesc].
    unfold description, description_position, description_bits.
    rewrite ExtractValue_mod, Z.land_ones by lia. reflexivity.
  - rewrite raw_of_fields_in_range by lia.
    apply Z.lor_nonneg. split; [lia | apply Z.shiftl_nonneg; lia].
  - rewrite raw_of_fields_in_range by lia.
    assert (H22 : Z.lor m (Z.shiftl d 9) < 2 ^ 22).
    { destruct (Z.eq_dec (Z.lor m (Z.shiftl d 9)) 0) as [-> | Hnz]; [reflexivity|].
      apply Z.log2_lt_pow2.
      - assert (0 <= Z.lor m (Z.shiftl d 9)).
        { apply Z.lor_nonneg. split; [lia | apply Z.shiftl_nonneg; lia]. }
        lia.
      - rewrite Z.log2_lor by (try lia; apply Z.shiftl_nonneg; lia).
        apply Z.max_lub_lt.
        + destruct (Z.eq_dec m 0) as [-> | ?]; [reflexivity|].
          apply Z.log2_lt_pow2; lia.
        + rewrite Z.shiftl_mul_pow2 by lia.
          destruct (Z.eq_dec d 0) as [-> | ?]; [reflexivity|].
          apply Z.log2_lt_pow2; lia. }
    lia.
Qed.

Lemma Result_pack_unpack_witness :
  raw (Result_of_fields 511 8191) = Z.lor 511 (Z.shiftl 8191 9)
  /\ module (Result_of_fields 511 8191) = 511
  /\ description (Result_of_fields 511 8191) = 8191.
Proof.
  destruct (Result_pack_unpack 511 8191) as (H1 & _ & _ & _ & _ & H2 & H3 & _);
    [lia | lia |].
  exact (conj H1 (conj H2 H3)).
Defined.

(** C2.  [Result(ErrorModule::Common, 0)] is the all-zero word, which is
    the only success value: [IsSuccess] holds exactly when the raw word
    is 0, hence fails as soon as one of the fields is not 0, and fails
    for [Result(m, d)] with [(m, d)] in range and different from
    [(0, 0)]; exactly one of [IsSuccess] and [IsFailure] holds; and
    [ResultSuccess] is that all-zero word. *)
Theorem IsSuccess_unique :
  raw (Result_of_fields ErrorModule.Common 0) = 0
  /\ (forall r, IsSuccess r = true <-> raw r = 0)
  /\ (forall r, IsSuccess r = true -> r = ResultSuccess)
  /\ (forall r, (module r, description r) <> (0, 0) -> IsSuccess r = false)
  /\ (forall m d, 0 <= m <= 511 -> 0 <= d <= 8191 -> (m, d) <> (0, 0) ->
        IsSuccess (Result_of_fields m d) = false)
  /\ (forall r, xorb (IsSuccess r) (IsFailure r) = true)
  /\ raw ResultSuccess = 0
  /\ ResultSuccess = Result_of_fields ErrorModule.Common 0
  /\ IsSuccess ResultSuccess = true.
Proof.
  assert (Hfields : forall r, (module r, description r) <> (0, 0) ->
                      IsSuccess r = false).
  { intros r Hne. destruct (IsSuccess r) eqn:Hs; [|reflexivity].
    apply IsSuccess_raw, fields_of_zero in Hs. destruct Hs as [Hm Hd].
    exfalso. apply Hne. now rewrite Hm, Hd. }
  split; [reflexivity|].
  split; [exact IsSuccess_raw|].
  split.
  { intros [x] Hs. apply IsSuccess_raw in Hs. cbn in Hs. now subst x. }
  split; [exact Hfields|].
  split.
  { intros m d Hm Hd Hne. apply Hfields.
    rewrite module_of_fields, description_of_fields.
    rewrite !Z.mod_small by lia. exact Hne. }
  split.
  { intros r. unfold IsFailure. now destruct (IsSuccess r). }
  repeat split.
Qed.

Lemma IsSuccess_unique_witness :
  IsSuccess (Result_of_fields ErrorModule.FS 42) = false
  /\ IsSuccess (Result_of_raw (2 ^ 22)) = false.
Proof.
  destruct IsSuccess_unique as (_ & Hraw & _ & _ & Hmd & _).
  split.
  - apply Hmd; [unfold ErrorModule.FS; lia | lia | discriminate].
  - destruct (IsSuccess (Result_of_raw (2 ^ 22))) eqn:Hs; [|reflexivity].
    apply Hraw in Hs. discriminate Hs.
Defined.

(** No enumerator of [ErrorModule] other than [Common] packs to the
    success word, although some of them exceed the 9-bit field. *)
Lemma IsSuccess_enumerators (m d : Z) :
  In m ErrorModule.enumerators -> 0 <= d <= 8191 -> (m, d) <> (0, 0) ->
  IsSuccess (Result_of_fields m d) = false.
Proof.
  intros Hin Hd Hne.
  destruct (IsSuccess (Result_of_fields m d)) eqn:Hs; [|reflexivity].
  apply IsSuccess_raw, fields_of_zero in Hs. destruct Hs as [Hm Hdz].
  rewrite module_of_fields in Hm. rewrite description_of_fields in Hdz.
  rewrite Z.mod_small in Hdz by lia. subst d.
  assert (Hall : Forall (fun x => x mod 2 ^ 9 = 0 -> x = 0) ErrorModule.enumerators).
  { repeat constructor; cbv; congruence. }
  rewrite Forall_forall in Hall. specialize (Hall m Hin Hm). subst m.
  now contradiction Hne.
Qed.

Lemma ResultRange_Includes_truncated (M lo hi : Z) (r : Result) :
  ResultRange_Includes (ResultRange_of M lo hi) r = true
  <-> module r = M mod 2 ^ 9 /\ lo mod 2 ^ 13 <= description r <= hi.
Proof.
  unfold ResultRange_Includes, ResultRange_of. cbn [code description_end].
  rewrite module_of_fields, description_of_fields.
  rewrite !andb_true_iff, Z.eqb_eq, !Z.leb_le. intuition congruence.
Qed.

(** C7 (as amended).  [ResultRange(M, lo, hi).Includes(r)] compares
    [r]'s fields with the fields of the range's own code, that is with
    [M] and [lo] truncated to 9 and 13 bits.  When [M] is in [0, 511]
    and [lo] in [0, 8191] it holds exactly when [r]'s module is [M] and
    [lo <= r.description <= hi], and it is false for every [r] of
    another module. *)
Theorem ResultRange_Includes_spec (M lo hi : Z) (r : Result) :
  (ResultRange_Includes (ResultRange_of M lo hi) r = true
   <-> module r = M mod 2 ^ 9 /\ lo mod 2 ^ 13 <= description r <= hi)
  /\ (0 <= M <= 511 -> 0 <= lo <= 8191 ->
      (ResultRange_Includes (ResultRange_of M lo hi) r = true
       <-> module r = M /\ lo <= description r <= hi)
      /\ (module r <> M -> ResultRange_Includes (ResultRange_of M lo hi) r = false)).
Proof.
  split; [apply ResultRange_Includes_truncated|].
  intros HM Hlo.
  assert (Hiff : ResultRange_Includes (ResultRange_of M lo hi) r = true
                 <-> module r = M /\ lo <= description r <= hi).
  { rewrite ResultRange_Includes_truncated. rewrite !Z.mod_small by lia. tauto. }
  split; [exact Hiff|].
  intros Hne.
  destruct (ResultRange_Includes (ResultRange_of M lo hi) r) eqn:Hinc; [|reflexivity].
  exfalso. apply Hne. now apply Hiff.
Qed.

Lemma ResultRange_Includes_spec_witness :
  ResultRange_Includes (ResultRange_of ErrorModule.FS 10 20)
    (Result_of_fields ErrorModule.FS 15) = true
  /\ ResultRange_Includes (ResultRange_of ErrorModule.FS 10 20)
       (Result_of_fields ErrorModule.Kernel 15) = false.
Proof.
  split.
  - destruct (ResultRange_Includes_spec ErrorModule.FS 10 20
                (Result_of_fields ErrorModule.FS 15)) as [_ H].
    destruct H as [Hiff _]; [unfold ErrorModule.FS; lia | lia |].
    apply Hiff. vm_compute. intuition discriminate.
  - destruct (ResultRange_Includes_spec ErrorModule.FS 10 20
                (Result_of_fields ErrorModule.Kernel 15)) as [_ H].
    destruct H as [_ Hne]; [unfold ErrorModule.FS; lia | lia |].
    apply Hne. vm_compute. discriminate.
Defined.

(** C7 as stated fails: the range of the enumerator [GeneralWebApplet]
    (800, which does not fit 9 bits) includes a [Result] whose module
    field is 288, not 800. *)
Lemma ResultRange_Includes_counterexample :
  ~ (forall (M lo hi : Z) (r : Result),
       ResultRange_Includes (ResultRange_of M lo hi) r = true
       <-> module r = M /\ lo <= description r <= hi).
Proof.
  intros H.
  destruct (H ErrorModule.GeneralWebApplet 0 0 (Result_of_raw 288)) as [Hfwd _].
  destruct (Hfwd eq_refl) as [Hm _]. vm_compute in Hm. discriminate Hm.
Qed.

(** C8.  Converting [ResultRange(M, lo, hi)] to [Result] gives
    [Result(M, lo)] whatever [hi] is: its description is never another
    description of the range; for [lo] in [0, 8191] it is [lo], and the
    result is no [Result(M, d)] with [d <> lo] in [0, 8191]. *)
Theorem ResultRange_to_Result_lower_bound (M lo hi : Z) :
  ResultRange_to_Result (ResultRange_of M lo hi) = Result_of_fields M lo
  /\ (forall hi', ResultRange_to_Result (ResultRange_of M lo hi')
                  = ResultRange_to_Result (ResultRange_of M lo hi))
  /\ (forall d, 0 <= lo -> lo <= d <= hi -> d <> lo ->
        description (ResultRange_to_Result (ResultRange_of M lo hi)) <> d)
  /\ (0 <= lo <= 8191 ->
      description (ResultRange_to_Result (ResultRange_of M lo hi)) = lo)
  /\ (forall d, 0 <= lo <= 8191 -> 0 <= d <= 8191 -> d <> lo ->
        ResultRange_to_Result (ResultRange_of M lo hi) <> Result_of_fields M d).
Proof.
  unfold ResultRange_to_Result, ResultRange_of. cbn [code].
  split; [reflexivity|].
  split; [reflexivity|].
  split; [|split].
  - intros d Hlo Hd Hne. rewrite description_of_fields.
    pose proof (Z.mod_le lo (2 ^ 13) Hlo ltac:(lia)) as Hle.
    intros Heq.
    assert (Hsmall : lo mod 2 ^ 13 = lo) by lia. lia.
  - intros Hlo. rewrite description_of_fields. apply Z.mod_small. lia.
  - intros d Hlo Hd Hne Heq.
    apply (f_equal description) in Heq.
    rewrite !description_of_fields, !Z.mod_small in Heq by lia. congruence.
Qed.

Lemma ResultRange_to_Result_lower_bound_witness :
  description (ResultRange_to_Result (ResultRange_of ErrorModule.FS 10 20)) = 10
  /\ description (ResultRange_to_Result (ResultRange_of ErrorModule.FS 10 20)) <> 15
  /\ ResultRange_to_Result (ResultRange_of ErrorModule.FS 10 20)
     <> Result_of_fields ErrorModule.FS 15.
Proof.
  destruct (ResultRange_to_Result_lower_bound ErrorModule.FS 10 20)
    as (_ & _ & Hother & Hd & Hne).
  split; [apply Hd; lia | split; [apply Hother; lia | apply Hne; lia]].
Defined.

(** C9.  [a.Includes(b)] holds exactly when the module and description
    fields of [a] and [b] are equal, that is when [a.raw] and [b.raw]
    agree on their low 22 bits; on words whose bits 22..31 are zero it
    is [operator==]. *)
Theorem Result_Includes_fields (a b : Result) :
  (Includes a b = true <-> module a = module b /\ description a = description b)
  /\ (Includes a b = true
      <-> Z.land (raw a) (Z.ones 22) = Z.land (raw b) (Z.ones 22))
  /\ (0 <= raw a < 2 ^ 22 -> 0 <= raw b < 2 ^ 22 ->
      Includes a b = Result_eqb a b).
Proof.
  assert (Hlow : Includes a b = true <-> raw a mod 2 ^ 22 = raw b mod 2 ^ 22).
  { unfold Includes. rewrite Z.eqb_eq, !GetInnerValue_low22. tauto. }
  pose proof (module_range a) as Hma. pose proof (module_range b) as Hmb.
  split; [|split].
  - rewrite Hlow, !low22_fields. split.
    + intros H. split; lia.
    + intros [Hm Hd]. congruence.
  - rewrite Hlow, !Z.land_ones by lia. tauto.
  - intros Ha Hb. unfold Includes, Result_eqb.
    rewrite !GetInnerValue_low22, !Z.mod_small by lia. reflexivity.
Qed.

Lemma Result_Includes_fields_witness :
  Includes (Result_of_fields ErrorModule.FS 42) (Result_of_raw 21506)
  = Result_eqb (Result_of_fields ErrorModule.FS 42) (Result_of_raw 21506).
Proof.
  destruct (Result_Includes_fields (Result_of_fields ErrorModule.FS 42)
              (Result_of_raw 21506)) as (_ & _ & H).
  apply H; vm_compute; split; congruence.
Defined.

End ResultClaims.

(** * Properties of ResultVal *)

Section ResultValClaims.

Context {T : Type}.

(** C5.  A [ResultVal<T>] built from a failure code [E] reports
    [Failed()], not [Succeeded()], converts to [false], hands [E] back
    unchanged from [Code()], and [Unwrap()] on it fails its assertion
    and yields no value. *)
Theorem ResultVal_of_failure (E : Result) :
  E <> ResultSuccess ->
  Failed (ResultVal_of_code (T := T) E) = true
  /\ Succeeded (ResultVal_of_code (T := T) E) = false
  /\ to_bool (ResultVal_of_code (T := T) E) = false
  /\ Code (ResultVal_of_code (T := T) E) = E
  /\ Unwrap (ResultVal_of_code (T := T) E)
     = AssertionFailure "Tried to Unwrap empty ResultVal"
  /\ (forall v : T, Unwrap (ResultVal_of_code (T := T) E) <> Ok v).
Proof.
  intros _. repeat split. intros v H. discriminate H.
Qed.

(** C10.  Building a [ResultVal<T>] from [ResultSuccess] goes through
    like any other code and gives an object in the failure state whose
    [Code()] is nevertheless [ResultSuccess]: [Code()] is the same as
    for an object that holds a value. *)
Theorem ResultVal_of_ResultSuccess :
  expected (ResultVal_of_code (T := T) ResultSuccess) = Common.Unexpected ResultSuccess
  /\ Succeeded (ResultVal_of_code (T := T) ResultSuccess) = false
  /\ Failed (ResultVal_of_code (T := T) ResultSuccess) = true
  /\ to_bool (ResultVal_of_code (T := T) ResultSuccess) = false
  /\ Code (ResultVal_of_code (T := T) ResultSuccess) = ResultSuccess
  /\ (forall v : T,
        Code (ResultVal_of_code (T := T) ResultSuccess) = Code (ResultVal_of_value v)
        /\ Succeeded (ResultVal_of_code (T := T) ResultSuccess)
           <> Succeeded (ResultVal_of_value v)).
Proof.
  repeat split. discriminate.
Qed.

End ResultValClaims.

(** C6 (as amended).  For every type [T] other than [Result] and
    [ResultRange] and every value [v], [ResultVal<T>(v)] reports
    [Succeeded()], converts to [true], has [Code() == ResultSuccess],
    and both [Unwrap()] and [ValueOr(fallback)] give [v] back.  For
    [T = Result] the constructor taking a [Result] is selected: the
    object is a failure whose [Code()] is [v]; for [T = ResultRange] it
    is a failure whose [Code()] is the [Result] of the range. *)
Theorem ResultVal_construct_roundtrip :
  (forall (T : Type) (v : T),
     Succeeded (ResultVal_construct (T_other T) v) = true
     /\ Failed (ResultVal_construct (T_other T) v) = false
     /\ to_bool (ResultVal_construct (T_other T) v) = true
     /\ Code (ResultVal_construct (T_other T) v) = ResultSuccess
     /\ Unwrap (ResultVal_construct (T_other T) v) = Ok v
     /\ (forall fallback : T,
           ValueOr (ResultVal_construct (T_other T) v) fallback = v))
  /\ (forall v : Result,
        Succeeded (ResultVal_construct T_Result v) = false
        /\ Failed (ResultVal_construct T_Result v) = true
        /\ to_bool (ResultVal_construct T_Result v) = false
        /\ Code (ResultVal_construct T_Result v) = v
        /\ Unwrap (ResultVal_construct T_Result v)
           = AssertionFailure "Tried to Unwrap empty ResultVal"
        /\ (forall fallback : Result,
              ValueOr (ResultVal_construct T_Result v) fallback = fallback))
  /\ (forall v : ResultRange,
        Succeeded (ResultVal_construct T_ResultRange v) = false
        /\ Failed (ResultVal_construct T_ResultRange v) = true
        /\ to_bool (ResultVal_construct T_ResultRange v) = false
        /\ Code (ResultVal_construct T_ResultRange v) = ResultRange_to_Result v
        /\ Unwrap (ResultVal_construct T_ResultRange v)
           = AssertionFailure "Tried to Unwrap empty ResultVal"
        /\ (forall fallback : ResultRange,
              ValueOr (ResultVal_construct T_ResultRange v) fallback = fallback)).
Proof.
  split; [|split]; intros; repeat split.
Qed.

(** C6 as stated fails at [T = Result]: [ResultVal<Result>(Result(FS, 42))]
    goes through [ResultVal(Result)], so it does not report
    [Succeeded()], its [Code()] is [Result(FS, 42)] and [Unwrap()] fails
    its assertion. *)
Lemma ResultVal_construct_counterexample :
  ~ (forall (ty : value_type) (v : type_of ty),
       Succeeded (ResultVal_construct ty v) = true
       /\ to_bool (ResultVal_construct ty v) = true
       /\ Code (ResultVal_construct ty v) = ResultSuccess
       /\ Unwrap (ResultVal_construct ty v) = Ok v
       /\ (forall fallback, ValueOr (ResultVal_construct ty v) fallback = v)).
Proof.
  intros H.
  destruct (H T_Result (Result_of_fields ErrorModule.FS 42)) as [Hs _].
  discriminate Hs.
Qed.

Lemma ResultVal_of_failure_witness :
  Code (ResultVal_of_code (T := nat) (Result_of_fields ErrorModule.FS 42))
  = Result_of_fields ErrorModule.FS 42
  /\ Unwrap (ResultVal_of_code (T := nat) (Result_of_fields ErrorModule.FS 42))
     = AssertionFailure "Tried to Unwrap empty ResultVal".
Proof.
  destruct (ResultVal_of_failure (T := nat) (Result_of_fields ErrorModule.FS 42))
    as (_ & _ & _ & Hc & Hu & _).
  - intros H. apply (f_equal raw) in H. vm_compute in H. discriminate H.
  - exact (conj Hc Hu).
Defined.

(** * Properties of the propagation macros and of the scoped guards *)

Section LeaveFacts.

Lemma fold_destroy (gs : list ScopedResultGuard) (fr : frame) :
  fold_left destroy gs fr = Build_frame (store fr) (trace fr ++ exits (store fr) gs).
Proof.
  revert fr. induction gs as [| g gs IH]; intros fr; cbn [fold_left exits map].
  - rewrite app_nil_r. now destruct fr.
  - rewrite IH. unfold destroy, log. cbn [store trace].
    rewrite <- app_assoc. reflexivity.
Qed.

Lemma leave_spec (sc : scope) (fr : frame) :
  leave sc fr = Build_frame (store fr) (trace fr ++ exits (store fr) (guards sc)).
Proof. apply fold_destroy. Qed.

Lemma store_leave (sc : scope) (fr : frame) : store (leave sc fr) = store fr.
Proof. now rewrite leave_spec. Qed.

Lemma trace_leave (sc : scope) (fr : frame) :
  trace (leave sc fr) = trace fr ++ exits (store fr) (guards sc).
Proof. now rewrite leave_spec. Qed.

Lemma leave_enter (sc : scope) (fr : frame) : leave (enter sc) fr = fr.
Proof. reflexivity. Qed.

Lemma trace_update (ref : CurrentResultReference) (r : Result) (fr : frame) :
  trace (update ref r fr) = trace fr.
Proof. now destruct ref. Qed.

Lemma exits_no_Exec (st : list Result) (gs : list ScopedResultGuard) (a : action) :
  ~ In (Exec a) (exits st gs).
Proof.
  unfold exits. rewrite in_map_iff. intros (g & H & _). discriminate H.
Qed.

End LeaveFacts.

Section Propagation.

Lemma exec_R_RETURN (res : Result) (k : statements) (sc : scope) (fr : frame) :
  exec (R_RETURN res k) sc fr = (Returned res, sc, update (current sc) res fr).
Proof. reflexivity. Qed.

Lemma exec_R_TRY_failure (res : Result) (k : statements) (sc : scope) (fr : frame) :
  R_FAILED res = true ->
  exec (R_TRY res k) sc fr = (Returned res, sc, update (current sc) res fr).
Proof.
  intros H. unfold R_TRY. rewrite H. reflexivity.
Qed.

Lemma exec_R_TRY_success (res : Result) (k : statements) (sc : scope) (fr : frame) :
  R_FAILED res = false ->
  exec (R_TRY res k) sc fr = exec k sc fr.
Proof.
  intros H. unfold R_TRY. rewrite H. reflexivity.
Qed.

Lemma exec_R_UNLESS (expr : bool) (res : Result) (k : statements)
    (sc : scope) (fr : frame) :
  exec (R_UNLESS expr res k) sc fr
  = if expr then exec k sc fr
    else (Returned res, sc, update (current sc) res fr).
Proof. now destruct expr. Qed.

(** C4.  When the sub-operation handed to [R_TRY], [CASCADE_CODE] or
    [CASCADE_RESULT] gives a failure [E], the enclosing block, and the
    function when it is executing its body, returns exactly [E]; what
    follows the macro is not executed (the outcome does not depend on
    it and nothing but guard destructors is logged).  When the
    sub-operation succeeds, execution goes on with what follows, with
    the unwrapped value bound for [CASCADE_RESULT]. *)
Theorem try_propagate_identity (E : Result) (k : statements)
    (sc : scope) (fr : frame) :
  E <> ResultSuccess ->
  exec_block (R_TRY E k) sc fr
    = (Returned E, leave sc (update (current sc) E fr))
  /\ exec_block (CASCADE_CODE E k) sc fr = (Returned E, leave sc fr)
  /\ (forall (T : Type) (kT : T -> statements),
        exec_block (CASCADE_RESULT (ResultVal_of_code E) kT) sc fr
        = (Returned E, leave sc fr))
  /\ (forall a, In (Exec a) (trace (snd (exec_block (R_TRY E k) sc fr))) ->
                In (Exec a) (trace fr))
  /\ call (R_TRY E k) = (Returned E, [])
  /\ call (CASCADE_CODE E k) = (Returned E, [])
  /\ (forall (T : Type) (kT : T -> statements),
        call (CASCADE_RESULT (ResultVal_of_code E) kT) = (Returned E, []))
  /\ exec (R_TRY ResultSuccess k) sc fr = exec k sc fr
  /\ exec (CASCADE_CODE ResultSuccess k) sc fr = exec k sc fr
  /\ (forall (T : Type) (v : T) (kT : T -> statements),
        exec (CASCADE_RESULT (ResultVal_of_value v) kT) sc fr = exec (kT v) sc fr).
Proof.
  intros HE. pose proof (not_ResultSuccess_IsFailure E HE) as Hf.
  assert (Htry : forall sc' fr',
            exec_block (R_TRY E k) sc' fr'
            = (Returned E, leave sc' (update (current sc') E fr'))).
  { intros sc' fr'. unfold exec_block. now rewrite exec_R_TRY_failure. }
  assert (Hcode : forall sc' fr',
            exec_block (CASCADE_CODE E k) sc' fr' = (Returned E, leave sc' fr')).
  { intros sc' fr'. unfold exec_block, CASCADE_CODE, IsError.
    change (negb (IsSuccess E)) with (IsFailure E). rewrite Hf. reflexivity. }
  assert (Hres : forall (T : Type) (kT : T -> statements) sc' fr',
            exec_block (CASCADE_RESULT (ResultVal_of_code E) kT) sc' fr'
            = (Returned E, leave sc' fr')).
  { reflexivity. }
  split; [apply Htry|].
  split; [apply Hcode|].
  split; [intros; apply Hres|].
  split.
  { intros a. rewrite Htry. cbn [snd].
    rewrite trace_leave, trace_update, in_app_iff.
    intros [H | H]; [exact H | now apply exits_no_Exec in H]. }
  split; [unfold call; now rewrite Htry|].
  split; [unfold call; now rewrite Hcode|].
  split; [intros; unfold call; now rewrite Hres|].
  repeat split.
Qed.

Lemma try_propagate_identity_witness :
  call (R_TRY (Result_of_fields ErrorModule.FS 42) (Stmt "after" (R_SUCCEED End)))
  = (Returned (Result_of_fields ErrorModule.FS 42), []).
Proof.
  destruct (try_propagate_identity (Result_of_fields ErrorModule.FS 42)
              (Stmt "after" (R_SUCCEED End))
              (Build_scope GlobalConst false []) (Build_frame [] []))
    as (_ & _ & _ & _ & H & _).
  - intros H. apply (f_equal raw) in H. vm_compute in H. discriminate H.
  - exact H.
Defined.

End Propagation.

Section StoreFacts.

Lemma Result_eqb_eq (a b : Result) : Result_eqb a b = true -> a = b.
Proof.
  destruct a as [x], b as [y]. unfold Result_eqb. cbn [raw].
  intros H. apply Z.eqb_eq in H. now subst y.
Qed.

Lemma read_write_same (st : list Result) (cell : nat) (v : Result) :
  (cell < List.length st)%nat -> read cell (write cell v st) = v.
Proof.
  unfold read. revert cell.
  induction st as [| x st IH]; intros [| cell] H; cbn in *; try lia.
  - reflexivity.
  - apply IH. lia.
Qed.

Lemma Forall_write (P : Result -> Prop) (st : list Result) (cell : nat) (v : Result) :
  P v -> Forall P st -> Forall P (write cell v st).
Proof.
  intros Hv. revert cell.
  induction st as [| x st IH]; intros cell H; cbn.
  - constructor.
  - inversion H; subst. destruct cell; constructor; auto.
Qed.

Lemma Forall_read (P : Result -> Prop) (st : list Result) (cell : nat) :
  P ResultSuccess -> Forall P st -> P (read cell st).
Proof.
  intros H0 H. unfold read.
  destruct (nth_in_or_default cell st ResultSuccess) as [Hin | ->]; [|exact H0].
  rewrite Forall_forall in H. now apply H.
Qed.

Lemma filter_exits_other (f : action) (st : list Result) (gs : list ScopedResultGuard) :
  Forall (fun g => m_f g <> f) gs -> filter (exit_of f) (exits st gs) = [].
Proof.
  induction 1 as [| g gs Hg _ IH]; cbn; [reflexivity|].
  apply String.eqb_neq in Hg. rewrite Hg. exact IH.
Qed.

End StoreFacts.

Section GuardInOneBlock.

(** The guard under study has the closure [f]. *)
Variable f : action.

(** Code that constructs no guard with the closure [f] adds to the scope
    guards with other closures only, and logs no destructor of a guard
    with closure [f]. *)
Lemma exec_other_closures (k : statements) :
  forall (sc : scope) (fr : frame) (fl : flow) (sc' : scope) (fr' : frame),
    registers f k = false ->
    exec k sc fr = (fl, sc', fr') ->
    (exists gs, guards sc' = gs ++ guards sc /\ Forall (fun g => m_f g <> f) gs)
    /\ (exists evs, trace fr' = trace fr ++ evs /\ filter (exit_of f) evs = []).
Proof.
  assert (Hstay : forall (sc : scope) (fr : frame),
            (exists gs, guards sc = gs ++ guards sc /\ Forall (fun g => m_f g <> f) gs)
            /\ (exists evs, trace fr = trace fr ++ evs /\ filter (exit_of f) evs = [])).
  { intros sc fr. split; exists []; split;
      [reflexivity | constructor | now rewrite app_nil_r | reflexivity]. }
  induction k as [| a k IH | r | k IH | ev f' k IH | result k IH | body IHb k IHk];
    intros sc fr fl sc' fr' Hreg Hex; cbn in Hreg, Hex.
  - injection Hex as <- <- <-. apply Hstay.
  - destruct (IH sc (log (Exec a) fr) _ _ _ Hreg Hex) as (Hg & evs & Ht & Hf).
    split; [exact Hg|].
    exists (Exec a :: evs). split; [|exact Hf].
    rewrite Ht. cbn. now rewrite <- app_assoc.
  - injection Hex as <- <- <-. apply Hstay.
  - destruct (declared_here sc).
    + injection Hex as <- <- <-. apply Hstay.
    + cbn in Hex. eapply IH in Hex; [|exact Hreg]. exact Hex.
  - destruct (current sc) as [| c0].
    + injection Hex as <- <- <-. apply Hstay.
    + apply orb_false_iff in Hreg. destruct Hreg as [Hne Hreg].
      eapply IH in Hex; [|exact Hreg].
      destruct Hex as ((gs & Hg & Hall) & Hev). cbn [guards] in Hg.
      split; [|exact Hev].
      exists (gs ++ [Build_ScopedResultGuard ev c0 f']). split.
      * rewrite Hg, <- app_assoc. reflexivity.
      * apply Forall_app. split; [exact Hall|].
        constructor; [|constructor]. cbn. now apply String.eqb_neq.
  - eapply IH in Hex; [|exact Hreg]. now rewrite trace_update in Hex.
  - apply orb_false_iff in Hreg. destruct Hreg as [Hregb Hregk].
    destruct (exec body (enter sc) fr) as [[flb scb] frb] eqn:Hb.
    destruct (IHb (enter sc) _ _ _ _ Hregb Hb)
      as ((gsb & Hgb & Hallb) & (evsb & Htb & Hfb)).
    cbn [enter guards] in Hgb. rewrite app_nil_r in Hgb.
    assert (Htl : trace (leave scb frb)
                  = trace fr ++ (evsb ++ exits (store frb) gsb)).
    { rewrite trace_leave, Htb, Hgb, <- app_assoc. reflexivity. }
    assert (Hfl : filter (exit_of f) (evsb ++ exits (store frb) gsb) = []).
    { rewrite filter_app, Hfb, filter_exits_other by assumption. reflexivity. }
    assert (Hstop : (exists gs, guards sc = gs ++ guards sc
                                /\ Forall (fun g => m_f g <> f) gs)
                    /\ (exists evs, trace (leave scb frb) = trace fr ++ evs
                                    /\ filter (exit_of f) evs = [])).
    { split; [exists []; split; [reflexivity | constructor]|].
      exists (evsb ++ exits (store frb) gsb). split; assumption. }
    destruct flb as [| r |].
    + destruct (IHk _ _ _ _ _ Hregk Hex) as (Hg & evs & Ht & Hf).
      split; [exact Hg|].
      exists ((evsb ++ exits (store frb) gsb) ++ evs). split.
      * rewrite Ht, Htl, <- !app_assoc. reflexivity.
      * rewrite filter_app, Hfl, Hf. reflexivity.
    + injection Hex as <- <- <-. exact Hstop.
    + injection Hex as <- <- <-. exact Hstop.
Qed.

(** Code that leaves through [R_RETURN] only, under a current result
    reference bound to [cell], keeps that reference and leaves [cell]
    holding the returned value. *)
Lemma exec_returns_through_R_RETURN (cell : nat) (k : statements) :
  forall (sc : scope) (fr : frame) (fl : flow) (sc' : scope) (fr' : frame),
    returns_through_R_RETURN k = true ->
    current sc = Ref cell ->
    exec k sc fr = (fl, sc', fr') ->
    current sc' = Ref cell
    /\ match fl with
       | Next => store fr' = store fr
       | Returned r => store fr' = write cell r (store fr)
       | IllFormed => False
       end.
Proof.
  induction k as [| a k IH | r | k IH | ev f' k IH | result k IH | body IHb k IHk];
    intros sc fr fl sc' fr' Hret Hcur Hex; cbn in Hret, Hex.
  - injection Hex as <- <- <-. auto.
  - apply (IH sc (log (Exec a) fr) _ _ _ Hret Hcur Hex).
  - discriminate Hret.
  - discriminate Hret.
  - rewrite Hcur in Hex.
    eapply IH in Hex; [exact Hex | exact Hret | reflexivity].
  - destruct k; try discriminate Hret.
    apply Result_eqb_eq in Hret. subst r. cbn in Hex. injection Hex as <- <- <-.
    rewrite Hcur. auto.
  - apply andb_true_iff in Hret. destruct Hret as [Hretb Hretk].
    destruct (exec body (enter sc) fr) as [[flb scb] frb] eqn:Hb.
    destruct (IHb (enter sc) _ _ _ _ Hretb Hcur Hb) as (_ & Hsb).
    destruct flb as [| r |]; [| | contradiction].
    + destruct (IHk _ _ _ _ _ Hretk Hcur Hex) as (Hc & Hs).
      split; [exact Hc|]. now rewrite store_leave, Hsb in Hs.
    + injection Hex as <- <- <-. split; [exact Hcur|].
      now rewrite store_leave.
Qed.

End GuardInOneBlock.

Section GuardInAnyFunction.

Lemma exits_app (st : list Result) (gs1 gs2 : list ScopedResultGuard) :
  exits st (gs1 ++ gs2) = exits st gs1 ++ exits st gs2.
Proof. apply map_app. Qed.

Lemma sees_ResultSuccess (r : Result) (e : event) :
  sees ResultSuccess e -> sees r e.
Proof.
  destruct e as [a | g seen called]; cbn; [trivial|].
  intros [Hc [Hs | Hs]]; auto.
Qed.

Lemma sees_exits (r : Result) (st : list Result) (gs : list ScopedResultGuard) :
  Forall (fun v => v = ResultSuccess \/ v = r) st ->
  Forall (sees r) (exits st gs).
Proof.
  intros Hst. unfold exits. apply Forall_map, Forall_forall. intros g _. cbn.
  split; [reflexivity|].
  apply (Forall_read (fun v => v = ResultSuccess \/ v = r)); auto.
Qed.

Lemma all_success_weaken (r : Result) (st : list Result) :
  Forall (fun v => v = ResultSuccess) st ->
  Forall (fun v => v = ResultSuccess \/ v = r) st.
Proof. apply Forall_impl. auto. Qed.

(** In code where every [UpdateCurrentResultReference] belongs to an
    [R_RETURN], the [Result] locals all hold [ResultSuccess] as long
    as execution goes on, and hold [ResultSuccess] or the returned
    value once a [return] was executed. *)
Lemma exec_macro_expansion (c : statements) :
  forall (sc : scope) (fr : frame) (fl : flow) (sc' : scope) (fr' : frame),
    macro_expansion c = true ->
    Forall (fun v => v = ResultSuccess) (store fr) ->
    exec c sc fr = (fl, sc', fr') ->
    exists evs,
      trace fr' = trace fr ++ evs
      /\ match fl with
         | Next => Forall (fun v => v = ResultSuccess) (store fr')
                   /\ Forall (sees ResultSuccess) evs
         | Returned r => Forall (fun v => v = ResultSuccess \/ v = r) (store fr')
                         /\ Forall (sees r) evs
         | IllFormed => True
         end.
Proof.
  induction c as [| a k IH | r | k IH | ev f' k IH | result k IH | body IHb k IHk];
    intros sc fr fl sc' fr' Hm Hst Hex; cbn in Hm, Hex.
  - injection Hex as <- <- <-. exists []. rewrite app_nil_r. auto.
  - destruct (IH sc (log (Exec a) fr) _ _ _ Hm Hst Hex) as (evs & Ht & Hfl).
    exists (Exec a :: evs). split.
    + rewrite Ht. cbn. now rewrite <- app_assoc.
    + destruct fl as [| r |]; [| | exact I];
        destruct Hfl as [H1 H2]; (split; [exact H1|]);
        constructor; cbn; auto.
  - injection Hex as <- <- <-. exists []. rewrite app_nil_r.
    split; [reflexivity|]. split; [now apply all_success_weaken | constructor].
  - destruct (declared_here sc).
    + injection Hex as <- <- <-. exists []. now rewrite app_nil_r.
    + cbn in Hex.
      eapply IH in Hex; [exact Hex | exact Hm |].
      cbn [store]. apply Forall_app. split; [exact Hst|].
      constructor; [|constructor; [reflexivity | constructor]].
      destruct (current sc) as [| c0]; [reflexivity|].
      now apply (Forall_read (fun v => v = ResultSuccess)).
  - destruct (current sc) as [| c0].
    + injection Hex as <- <- <-. exists []. now rewrite app_nil_r.
    + eapply IH in Hex; [exact Hex | exact Hm | exact Hst].
  - destruct k; try discriminate Hm.
    apply Result_eqb_eq in Hm. subst r. cbn in Hex. injection Hex as <- <- <-.
    exists []. rewrite app_nil_r, trace_update. split; [reflexivity|].
    split; [|constructor].
    destruct (current sc) as [| c0]; cbn.
    * now apply all_success_weaken.
    * apply Forall_write; [now right | now apply all_success_weaken].
  - apply andb_true_iff in Hm. destruct Hm as [Hmb Hmk].
    destruct (exec body (enter sc) fr) as [[flb scb] frb] eqn:Hb.
    destruct (IHb _ _ _ _ _ Hmb Hst Hb) as (evsb & Htb & Hflb).
    assert (Htl : trace (leave scb frb)
                  = trace fr ++ (evsb ++ exits (store frb) (guards scb))).
    { rewrite trace_leave, Htb, <- app_assoc. reflexivity. }
    destruct flb as [| r |].
    + destruct Hflb as [Hsb Hevb].
      assert (Hx : Forall (sees ResultSuccess) (exits (store frb) (guards scb))).
      { apply sees_exits. now apply all_success_weaken. }
      assert (Hst' : Forall (fun v => v = ResultSuccess) (store (leave scb frb))).
      { now rewrite store_leave. }
      destruct (IHk _ _ _ _ _ Hmk Hst' Hex) as (evs & Ht & Hfl).
      exists ((evsb ++ exits (store frb) (guards scb)) ++ evs). split.
      * rewrite Ht, Htl, <- !app_assoc. reflexivity.
      * destruct fl as [| r |]; [| | exact I];
          destruct Hfl as [H1 H2]; (split; [exact H1|]);
          repeat (apply Forall_app; split); auto;
          eapply Forall_impl; try apply sees_ResultSuccess; eassumption.
    + destruct Hflb as [Hsb Hevb]. injection Hex as <- <- <-.
      exists (evsb ++ exits (store frb) (guards scb)). split; [exact Htl|].
      rewrite store_leave. split; [exact Hsb|].
      apply Forall_app. split; [exact Hevb | now apply sees_exits].
    + injection Hex as <- <- <-.
      exists (evsb ++ exits (store frb) (guards scb)). split; [exact Htl | exact I].
Qed.

Lemma call_macro_expansion (body : statements) (r : Result) (tr : list event) :
  macro_expansion body = true ->
  call body = (Returned r, tr) ->
  Forall (sees r) tr.
Proof.
  unfold call, exec_block. intros Hm Hcall.
  destruct (exec body (Build_scope GlobalConst false []) (Build_frame [] []))
    as [[fl sc'] fr'] eqn:Hex.
  injection Hcall as -> <-.
  destruct (exec_macro_expansion body _ (Build_frame [] []) _ _ _ Hm
              (Forall_nil _) Hex) as (evs & Ht & Hst & Hev).
  rewrite trace_leave, Ht. cbn [trace app].
  apply Forall_app. split; [exact Hev | now apply sees_exits].
Qed.

Lemma length_write (cell : nat) (v : Result) (st : list Result) :
  List.length (write cell v st) = List.length st.
Proof.
  revert cell. induction st as [| x st IH]; intros [| cell]; cbn; auto.
Qed.

Lemma read_write_other (st : list Result) (cell cell' : nat) (v : Result) :
  cell' <> cell -> read cell (write cell' v st) = read cell st.
Proof.
  unfold read. revert cell cell'.
  induction st as [| x st IH]; intros [| cell] [| cell'] H; cbn; try reflexivity;
    try congruence.
  apply IH. congruence.
Qed.

Lemma read_app (st extra : list Result) (cell : nat) :
  (cell < List.length st)%nat -> read cell (st ++ extra) = read cell st.
Proof. intros H. unfold read. now apply app_nth1. Qed.

Lemma length_update (ref : CurrentResultReference) (r : Result) (fr : frame) :
  List.length (store (update ref r fr)) = List.length (store fr).
Proof. destruct ref; cbn; [reflexivity | apply length_write]. Qed.

(** Running code never removes a [Result] local. *)
Lemma exec_store_length (c : statements) :
  forall (sc : scope) (fr : frame) (fl : flow) (sc' : scope) (fr' : frame),
    exec c sc fr = (fl, sc', fr') ->
    (List.length (store fr) <= List.length (store fr'))%nat.
Proof.
  induction c as [| a k IH | r | k IH | ev f' k IH | result k IH | body IHb k IHk];
    intros sc fr fl sc' fr' Hex; cbn in Hex.
  - injection Hex as <- <- <-. lia.
  - apply IH in Hex. exact Hex.
  - injection Hex as <- <- <-. lia.
  - destruct (declared_here sc).
    + injection Hex as <- <- <-. lia.
    + cbn in Hex. apply IH in Hex. cbn [store] in Hex.
      rewrite length_app in Hex. lia.
  - destruct (current sc).
    + injection Hex as <- <- <-. lia.
    + apply IH in Hex. exact Hex.
  - apply IH in Hex. now rewrite length_update in Hex.
  - destruct (exec body (enter sc) fr) as [[flb scb] frb] eqn:Hb.
    apply IHb in Hb.
    destruct flb as [| r |].
    + apply IHk in Hex. rewrite store_leave in Hex. lia.
    + injection Hex as <- <- <-. now rewrite store_leave.
    + injection Hex as <- <- <-. now rewrite store_leave.
Qed.

(** Only code that returns has a return reference. *)
Lemma return_reference_Returned (c : statements) :
  forall (sc : scope) (fr : frame) (fl : flow) (sc' : scope) (fr' : frame)
         (ref : CurrentResultReference),
    exec c sc fr = (fl, sc', fr') ->
    return_reference c sc fr = Some ref ->
    exists r, fl = Returned r.
Proof.
  induction c as [| a k IH | r | k IH | ev f' k IH | result k IH | body IHb k IHk];
    intros sc fr fl sc' fr' ref Hex Href; cbn in Hex.
  - discriminate Href.
  - eapply IH; [exact Hex | exact Href].
  - discriminate Href.
  - cbn in Href. destruct (declared_here sc); [discriminate Href|].
    cbn in Hex, Href. eapply IH; [exact Hex | exact Href].
  - cbn in Href. destruct (current sc); [discriminate Href|].
    eapply IH; [exact Hex | exact Href].
  - destruct k; try (eapply IH; [exact Hex | exact Href]).
    cbn in Hex. injection Hex as <- <- <-. eauto.
  - cbn in Href.
    destruct (exec body (enter sc) fr) as [[flb scb] frb] eqn:Hb.
    destruct flb as [| r |].
    + eapply IHk; [exact Hex | exact Href].
    + injection Hex as <- <- <-. eauto.
    + discriminate Href.
Qed.

(** When code returns through an [R_RETURN] executed under the
    reference bound to [cell], that local holds the returned value. *)
Lemma exec_return_reference (cell : nat) (c : statements) :
  forall (sc : scope) (fr : frame) (r : Result) (sc' : scope) (fr' : frame),
    exec c sc fr = (Returned r, sc', fr') ->
    return_reference c sc fr = Some (Ref cell) ->
    (cell < List.length (store fr))%nat ->
    read cell (store fr') = r.
Proof.
  induction c as [| a k IH | r0 | k IH | ev f' k IH | result k IH | body IHb k IHk];
    intros sc fr r sc' fr' Hex Href Hlen; cbn in Hex.
  - discriminate Href.
  - eapply IH; [exact Hex | exact Href | exact Hlen].
  - discriminate Href.
  - cbn in Href. destruct (declared_here sc); [discriminate Href|].
    cbn in Hex, Href. eapply IH; [exact Hex | exact Href |].
    cbn [store]. rewrite length_app. lia.
  - cbn in Href. destruct (current sc); [discriminate Href|].
    eapply IH; [exact Hex | exact Href | exact Hlen].
  - destruct k as [| ? ? | r1 | ? | ? ? ? | ? ? | ? ?];
      try (eapply IH; [exact Hex | exact Href | now rewrite length_update]).
    cbn in Hex, Href. destruct (Result_eqb result r1) eqn:Heq; [|discriminate Href].
    apply Result_eqb_eq in Heq. subst r1.
    injection Href as Hcur. injection Hex as <- <- <-.
    rewrite Hcur. cbn. now apply read_write_same.
  - cbn in Href.
    destruct (exec body (enter sc) fr) as [[flb scb] frb] eqn:Hb.
    destruct flb as [| r1 |].
    + eapply IHk; [exact Hex | exact Href |].
      rewrite store_leave. apply exec_store_length in Hb. lia.
    + injection Hex as <- <- <-. rewrite store_leave.
      eapply IHb; [exact Hb | exact Href | exact Hlen].
    + discriminate Href.
Qed.

(** In code built from the macros, a [Result] local changes only when
    the code returns through an [R_RETURN] executed under the reference
    bound to it. *)
Lemma exec_keeps_cell (cell : nat) (c : statements) :
  forall (sc : scope) (fr : frame) (fl : flow) (sc' : scope) (fr' : frame),
    macro_expansion c = true ->
    exec c sc fr = (fl, sc', fr') ->
    (cell < List.length (store fr))%nat ->
    return_reference c sc fr <> Some (Ref cell) ->
    read cell (store fr') = read cell (store fr).
Proof.
  induction c as [| a k IH | r0 | k IH | ev f' k IH | result k IH | body IHb k IHk];
    intros sc fr fl sc' fr' Hm Hex Hlen Href; cbn in Hm, Hex.
  - injection Hex as <- <- <-. reflexivity.
  - apply (IH sc (log (Exec a) fr) _ _ _ Hm Hex Hlen Href).
  - injection Hex as <- <- <-. reflexivity.
  - cbn in Href. destruct (declared_here sc).
    + injection Hex as <- <- <-. reflexivity.
    + cbn in Hex, Href.
      eapply IH in Hex; [| exact Hm | | exact Href].
      * rewrite Hex. cbn [store]. now apply read_app.
      * cbn [store]. rewrite length_app. lia.
  - cbn in Href. destruct (current sc).
    + injection Hex as <- <- <-. reflexivity.
    + eapply IH in Hex; [exact Hex | exact Hm | exact Hlen | exact Href].
  - destruct k; try discriminate Hm.
    cbn in Hex, Href. rewrite Hm in Href. injection Hex as <- <- <-.
    destruct (current sc) as [| c0]; cbn; [reflexivity|].
    apply read_write_other. congruence.
  - apply andb_true_iff in Hm. destruct Hm as [Hmb Hmk]. cbn in Href.
    destruct (exec body (enter sc) fr) as [[flb scb] frb] eqn:Hb.
    destruct flb as [| r1 |].
    + assert (Hb' : read cell (store frb) = read cell (store fr)).
      { eapply IHb; [exact Hmb | exact Hb | exact Hlen |].
        intros Hsome.
        destruct (return_reference_Returned body _ _ _ _ _ _ Hb Hsome) as [r1 Hr1].
        discriminate Hr1. }
      eapply IHk in Hex; [| exact Hmk | | exact Href].
      * rewrite Hex, store_leave. exact Hb'.
      * rewrite store_leave. apply exec_store_length in Hb. lia.
    + injection Hex as <- <- <-. rewrite store_leave.
      eapply IHb; [exact Hmb | exact Hb | exact Hlen | exact Href].
    + injection Hex as <- <- <-. rewrite store_leave.
      eapply IHb; [exact Hmb | exact Hb | exact Hlen |].
      intros Hsome.
      destruct (return_reference_Returned body _ _ _ _ _ _ Hb Hsome) as [r1 Hr1].
      discriminate Hr1.
Qed.

(** Code that leaves through [R_RETURN] only, under a reference that is
    not declared again, returns through that reference. *)
Lemma returns_through_return_reference (cell : nat) (c : statements) :
  forall (sc : scope) (fr : frame) (r : Result) (sc' : scope) (fr' : frame),
    returns_through_R_RETURN c = true ->
    current sc = Ref cell ->
    exec c sc fr = (Returned r, sc', fr') ->
    return_reference c sc fr = Some (Ref cell).
Proof.
  induction c as [| a k IH | r0 | k IH | ev f' k IH | result k IH | body IHb k IHk];
    intros sc fr r sc' fr' Hret Hcur Hex; cbn in Hret, Hex.
  - discriminate Hex.
  - apply (IH sc (log (Exec a) fr) _ _ _ Hret Hcur Hex).
  - discriminate Hret.
  - discriminate Hret.
  - cbn. rewrite Hcur in *.
    eapply IH; [exact Hret | reflexivity | exact Hex].
  - destruct k; try discriminate Hret. cbn. rewrite Hret, Hcur. reflexivity.
  - apply andb_true_iff in Hret. destruct Hret as [Hretb Hretk]. cbn.
    destruct (exec body (enter sc) fr) as [[flb scb] frb] eqn:Hb.
    destruct flb as [| r1 |].
    + eapply IHk; [exact Hretk | exact Hcur | exact Hex].
    + eapply (IHb (enter sc)); [exact Hretb | exact Hcur | exact Hb].
    + discriminate Hex.
Qed.

(** The guard constructed by [DECLARE_...; ON_RESULT_RETURN_IMPL(ev)]:
    it is destroyed once, when its block is left, after everything the
    rest of the block does and before the guards registered earlier in
    the block, and it sees the returned value when the block is left by
    an [R_RETURN] executed under the reference the guard is bound to. *)
Lemma guard_exit_once (ev : Result -> bool) (f : action) (k : statements)
    (sc : scope) (fr : frame) (fl : flow) (fr' : frame) :
  declared_here sc = false ->
  registers f k = false ->
  Forall (fun g => m_f g <> f) (guards sc) ->
  exec_block (DECLARE_CURRENT_RESULT_REFERENCE_AND_STORAGE
                (ON_RESULT_RETURN_IMPL ev f k)) sc fr = (fl, fr') ->
  exists seen before after,
    trace fr' = trace fr ++ before
                ++ GuardExit (Build_ScopedResultGuard ev (next_reference sc fr) f)
                     seen (ev seen) :: after
    /\ seen = read (next_reference sc fr) (store fr')
    /\ after = exits (store fr') (guards sc)
    /\ filter (exit_of f) before = []
    /\ filter (exit_of f) after = []
    /\ (forall r, fl = Returned r ->
          return_reference (DECLARE_CURRENT_RESULT_REFERENCE_AND_STORAGE
                              (ON_RESULT_RETURN_IMPL ev f k)) sc fr
          = Some (Ref (next_reference sc fr)) ->
          seen = r)
    /\ (returns_through_R_RETURN k = true ->
        forall r, fl = Returned r -> seen = r)
    /\ (macro_expansion k = true ->
        return_reference (DECLARE_CURRENT_RESULT_REFERENCE_AND_STORAGE
                            (ON_RESULT_RETURN_IMPL ev f k)) sc fr
        <> Some (Ref (next_reference sc fr)) ->
        seen = initial_value sc fr).
Proof.
  intros Hdecl Hreg Hold. unfold exec_block. cbn [exec return_reference].
  rewrite Hdecl. unfold declare.
  fold (next_reference sc fr). fold (initial_value sc fr).
  set (bound := next_reference sc fr).
  set (st1 := store fr ++ _).
  cbn [current declared_here guards].
  set (g := Build_ScopedResultGuard ev bound f).
  destruct (exec k _ _) as [[fl0 sc'] frk] eqn:Hex.
  intros Heq. injection Heq as -> <-.
  pose proof Hex as Hex'.
  eapply (exec_other_closures f k) in Hex'; [|assumption].
  destruct Hex' as ((gs & Hg & Hall) & (evs & Ht & Hf)).
  cbn [guards store trace] in Hg, Ht.
  assert (Hbound : (bound < List.length st1)%nat).
  { unfold st1. rewrite length_app. cbn.
    unfold bound, next_reference. destruct (current sc); lia. }
  exists (read bound (store frk)), (evs ++ exits (store frk) gs),
    (exits (store frk) (guards sc)).
  split; [|split; [|split; [|split; [|split; [|split; [|split]]]]]].
  - rewrite trace_leave, Ht, Hg.
    change (g :: guards sc) with ([g] ++ guards sc).
    rewrite !exits_app, <- !app_assoc. reflexivity.
  - now rewrite store_leave.
  - now rewrite store_leave.
  - rewrite filter_app, Hf, filter_exits_other by assumption. reflexivity.
  - apply filter_exits_other. assumption.
  - intros r -> Href.
    eapply (exec_return_reference bound k); [exact Hex | exact Href | exact Hbound].
  - intros Hret r ->.
    eapply (exec_return_reference bound k); [exact Hex | | exact Hbound].
    eapply returns_through_return_reference; [exact Hret | reflexivity | exact Hex].
  - intros Hm Href.
    rewrite (exec_keeps_cell bound k _ _ _ _ _ Hm Hex Hbound Href).
    cbn [store]. unfold st1, bound, next_reference, initial_value, read.
    destruct (current sc).
    + rewrite app_nth2 by lia.
      replace (S (List.length (store fr)) - List.length (store fr))%nat with 1%nat by lia.
      reflexivity.
    + rewrite app_nth2 by lia. rewrite Nat.sub_diag. reflexivity.
Qed.

End GuardInAnyFunction.

Section ScopedGuardClaim.

(** C3 (as amended).  A guard registered with [ON_RESULT_FAILURE] or
    [ON_RESULT_SUCCESS] is destroyed exactly once, when the block it was
    registered in is left (the body of the function or a nested block):
    after everything the rest of the block does, followed only by the
    destructors of the guards registered earlier in that block; its
    predicate is evaluated there on the [Result] local it is bound to.
    When the block is left by an [R_RETURN] / [R_THROW] that is executed
    while the current result reference is the one the guard is bound to
    (directly, through [R_TRY] / [R_UNLESS], at any return point, in the
    block or in a nested block, but not under an [ON_RESULT_FAILURE] /
    [ON_RESULT_SUCCESS] of a nested block), the guard sees exactly the
    returned [Result], so it calls its closure exactly when that
    [Result] is a failure, respectively a success.  In any function
    built from the macros a guard sees either [ResultSuccess] or the
    returned [Result], so a guard registered for failure never runs
    when the function returns a success. *)
Theorem scoped_guard_outcome (f : action) (k : statements)
    (sc : scope) (fr : frame) (fl : flow) (fr' : frame) :
  declared_here sc = false ->
  registers f k = false ->
  Forall (fun g => m_f g <> f) (guards sc) ->
  (exec_block (ON_RESULT_FAILURE f k) sc fr = (fl, fr') ->
   exists seen before after,
     trace fr' = trace fr ++ before
                 ++ GuardExit (Build_ScopedResultGuard EvaluateResultFailure
                                 (next_reference sc fr) f)
                      seen (IsFailure seen) :: after
     /\ seen = read (next_reference sc fr) (store fr')
     /\ after = exits (store fr') (guards sc)
     /\ filter (exit_of f) before = []
     /\ filter (exit_of f) after = []
     /\ (forall r, fl = Returned r ->
           return_reference (ON_RESULT_FAILURE f k) sc fr
           = Some (Ref (next_reference sc fr)) ->
           seen = r)
     /\ (returns_through_R_RETURN k = true ->
         forall r, fl = Returned r -> seen = r))
  /\ (exec_block (ON_RESULT_SUCCESS f k) sc fr = (fl, fr') ->
      exists seen before after,
        trace fr' = trace fr ++ before
                    ++ GuardExit (Build_ScopedResultGuard EvaluateResultSuccess
                                    (next_reference sc fr) f)
                         seen (IsSuccess seen) :: after
        /\ seen = read (next_reference sc fr) (store fr')
        /\ after = exits (store fr') (guards sc)
        /\ filter (exit_of f) before = []
        /\ filter (exit_of f) after = []
        /\ (forall r, fl = Returned r ->
              return_reference (ON_RESULT_SUCCESS f k) sc fr
              = Some (Ref (next_reference sc fr)) ->
              seen = r)
        /\ (returns_through_R_RETURN k = true ->
            forall r, fl = Returned r -> seen = r))
  /\ (forall (body rest : statements) (sc0 : scope) (fr0 : frame),
        exec (Block body rest) sc0 fr0
        = match exec_block body (enter sc0) fr0 with
          | (Next, fr1) => exec rest sc0 fr1
          | (Returned r, fr1) => (Returned r, sc0, fr1)
          | (IllFormed, fr1) => (IllFormed, sc0, fr1)
          end)
  /\ (forall body : statements,
        call body
        = (fst (exec_block body (Build_scope GlobalConst false []) (Build_frame [] [])),
           trace (snd (exec_block body (Build_scope GlobalConst false [])
                         (Build_frame [] [])))))
  /\ (forall (body : statements) (r0 : Result) (tr : list event)
             (g : ScopedResultGuard) (seen : Result) (called : bool),
        macro_expansion body = true ->
        call body = (Returned r0, tr) ->
        In (GuardExit g seen called) tr ->
        called = EvaluateResult g seen
        /\ (seen = ResultSuccess \/ seen = r0)
        /\ (EvaluateResult g = EvaluateResultFailure ->
            IsSuccess r0 = true -> called = false)).
Proof.
  intros Hdecl Hreg Hold.
  split; [|split; [|split; [|split]]].
  - intros Hex.
    destruct (guard_exit_once EvaluateResultFailure f k sc fr fl fr'
                Hdecl Hreg Hold Hex)
      as (seen & before & after & Ht & Hs & Hx & Hb & Ha & Hdyn & Hstat & _).
    exists seen, before, after. repeat (split; [assumption|]). assumption.
  - intros Hex.
    destruct (guard_exit_once EvaluateResultSuccess f k sc fr fl fr'
                Hdecl Hreg Hold Hex)
      as (seen & before & after & Ht & Hs & Hx & Hb & Ha & Hdyn & Hstat & _).
    exists seen, before, after. repeat (split; [assumption|]). assumption.
  - intros body rest sc0 fr0. unfold exec_block. cbn [exec].
    destruct (exec body (enter sc0) fr0) as [[flb scb] frb].
    destruct flb; reflexivity.
  - intros body. unfold call.
    destruct (exec_block body _ _) as [fl0 fr0]. reflexivity.
  - intros body r0 tr g seen called Hm Hcall Hin.
    pose proof (call_macro_expansion body r0 tr Hm Hcall) as Hall.
    rewrite Forall_forall in Hall. specialize (Hall _ Hin).
    cbn in Hall. destruct Hall as [Hc Hs].
    split; [exact Hc|]. split; [exact Hs|].
    intros Hev Hr0. rewrite Hc, Hev.
    unfold EvaluateResultFailure, R_FAILED, IsFailure.
    destruct Hs as [-> | ->]; [reflexivity | now rewrite Hr0].
Qed.

(** The guard of
    [ON_RESULT_FAILURE { rollback }; { ON_RESULT_SUCCESS { log }; work; }
     R_THROW(Result(FS, 42));]
    sees the thrown [Result] although a block with a guard of its own
    comes before the [R_THROW]. *)
Lemma scoped_guard_outcome_witness :
  exists before after,
    trace (snd (exec_block
                  (ON_RESULT_FAILURE "rollback"
                     (Block (ON_RESULT_SUCCESS "log" (Stmt "work" End))
                        (R_THROW (Result_of_fields ErrorModule.FS 42) End)))
                  (Build_scope GlobalConst false []) (Build_frame [] [])))
    = [] ++ before
      ++ GuardExit (Build_ScopedResultGuard EvaluateResultFailure 1 "rollback")
           (Result_of_fields ErrorModule.FS 42) true :: after
    /\ filter (exit_of "rollback") before = []
    /\ filter (exit_of "rollback") after = [].
Proof.
  destruct (scoped_guard_outcome "rollback"
              (Block (ON_RESULT_SUCCESS "log" (Stmt "work" End))
                 (R_THROW (Result_of_fields ErrorModule.FS 42) End))
              (Build_scope GlobalConst false []) (Build_frame [] [])
              (Returned (Result_of_fields ErrorModule.FS 42))
              (snd (exec_block
                      (ON_RESULT_FAILURE "rollback"
                         (Block (ON_RESULT_SUCCESS "log" (Stmt "work" End))
                            (R_THROW (Result_of_fields ErrorModule.FS 42) End)))
                      (Build_scope GlobalConst false []) (Build_frame [] []))))
    as [Hfailure _].
  - reflexivity.
  - reflexivity.
  - constructor.
  - destruct (Hfailure eq_refl)
      as (seen & before & after & Ht & _ & _ & Hb & Ha & Hseen & _).
    rewrite (Hseen _ eq_refl eq_refl) in Ht.
    exists before, after. split; [exact Ht | split; [exact Hb | exact Ha]].
Defined.

(** C3 as stated fails.  In
    [{ ON_RESULT_SUCCESS { commit }; } R_THROW(Result(FS, 42));] the
    guard's block ends before any [return]: its destructor sees
    [ResultSuccess], not the [Result] the function returns, and the
    closure of this success guard runs although the function returns
    a failure. *)
Lemma scoped_guard_counterexample :
  ~ (forall (body : statements) (r : Result) (tr : list event)
            (g : ScopedResultGuard) (seen : Result) (called : bool),
       macro_expansion body = true ->
       call body = (Returned r, tr) ->
       In (GuardExit g seen called) tr ->
       seen = r)
  /\ ~ (forall (body : statements) (r : Result) (tr : list event)
               (g : ScopedResultGuard) (seen : Result) (called : bool),
          macro_expansion body = true ->
          call body = (Returned r, tr) ->
          In (GuardExit g seen called) tr ->
          EvaluateResult g = EvaluateResultSuccess ->
          IsFailure r = true ->
          called = false).
Proof.
  set (E := Result_of_fields ErrorModule.FS 42).
  set (body := Block (ON_RESULT_SUCCESS "commit" End) (R_THROW E End)).
  set (g := Build_ScopedResultGuard EvaluateResultSuccess 1 "commit").
  assert (Hcall : call body = (Returned E, [GuardExit g ResultSuccess true])).
  { reflexivity. }
  split; intros H.
  - specialize (H body E _ g ResultSuccess true eq_refl Hcall (or_introl eq_refl)).
    apply (f_equal raw) in H. vm_compute in H. discriminate H.
  - specialize (H body E _ g ResultSuccess true eq_refl Hcall (or_introl eq_refl)
                  eq_refl eq_refl).
    discriminate H.
Qed.

(** The same happens at function scope when the function leaves
    through the plain [return] of [CASCADE_CODE], which does not store
    the returned value. *)
Lemma scoped_guard_CASCADE_CODE :
  call (ON_RESULT_SUCCESS "commit"
          (CASCADE_CODE (Result_of_fields ErrorModule.FS 42) (R_SUCCEED End)))
  = (Returned (Result_of_fields ErrorModule.FS 42),
     [GuardExit (Build_ScopedResultGuard EvaluateResultSuccess 1 "commit")
        ResultSuccess true]).
Proof. reflexivity. Qed.

(** A nested [ON_RESULT_FAILURE] binds the current result reference to
    [PrevRef_], a copy of the enclosing local: an [R_THROW] under it
    reaches the inner guard and leaves the outer guard with
    [ResultSuccess]. *)
Lemma scoped_guard_nested_declaration :
  call (ON_RESULT_FAILURE "outer"
          (Block (ON_RESULT_FAILURE "inner"
                    (R_THROW (Result_of_fields ErrorModule.FS 42) End))
                 (R_SUCCEED End)))
  = (Returned (Result_of_fields ErrorModule.FS 42),
     [GuardExit (Build_ScopedResultGuard EvaluateResultFailure 2 "inner")
        (Result_of_fields ErrorModule.FS 42) true;
      GuardExit (Build_ScopedResultGuard EvaluateResultFailure 1 "outer")
        ResultSuccess false]).
Proof. reflexivity. Qed.

(** Function A calls B, which calls C; C returns [Result(FS, 42)], B
    forwards it with [R_TRY], and A's failure guard runs on A's final
    result, whose raw word is [42 << 9 | 2]. *)
Lemma end_to_end_scenario :
  let C := R_THROW (Result_of_fields ErrorModule.FS 42) End in
  let B (c : Result) := R_TRY c (Stmt "B continues" (R_SUCCEED End)) in
  let A (b : Result) :=
    ON_RESULT_FAILURE "A cleanup" (R_TRY b (Stmt "A continues" (R_SUCCEED End))) in
  forall c b, fst (call C) = Returned c -> fst (call (B c)) = Returned b ->
    call (A b)
    = (Returned (Result_of_fields ErrorModule.FS 42),
       [GuardExit (Build_ScopedResultGuard EvaluateResultFailure 1 "A cleanup")
          (Result_of_fields ErrorModule.FS 42) true])
    /\ raw b = Z.lor (Z.shiftl 42 9) 2.
Proof.
  intros C B A c b Hc Hb. cbn in Hc. injection Hc as <-.
  cbn in Hb. injection Hb as <-. split; reflexivity.
Qed.

End ScopedGuardClaim.

(** * Further properties of Result *)

Section ResultWord.

Lemma Result_eta (r : Result) : r = Result_of_raw (raw r).
Proof. now destruct r. Qed.

Lemma raw_of_fields_range (m d : Z) : 0 <= raw (Result_of_fields m d) < 2 ^ 22.
Proof.
  assert (H : raw (Result_of_fields m d) = raw (Result_of_fields m d) mod 2 ^ 22).
  { apply Z.bits_inj'. intros i Hi.
    rewrite Z.testbit_mod_pow2, testbit_raw_of_fields by lia.
    destruct (Z.ltb_spec i 22), (Z.ltb_spec i 9); try lia;
      rewrite ?andb_false_r; reflexivity. }
  rewrite H. apply Z.mod_pos_bound. lia.
Qed.

Lemma raw_of_fields_sum (m d : Z) :
  raw (Result_of_fields m d) = m mod 2 ^ 9 + 2 ^ 9 * (d mod 2 ^ 13).
Proof.
  rewrite <- (Z.mod_small (raw (Result_of_fields m d)) (2 ^ 22))
    by apply raw_of_fields_range.
  rewrite low22_fields, module_of_fields, description_of_fields. reflexivity.
Qed.

Lemma Includes_low22 (a b : Result) :
  Includes a b = true <-> raw a mod 2 ^ 22 = raw b mod 2 ^ 22.
Proof.
  unfold Includes. rewrite Z.eqb_eq, !GetInnerValue_low22. tauto.
Qed.

Lemma Includes_fields_eq (a b : Result) :
  Includes a b = true <-> module a = module b /\ description a = description b.
Proof.
  rewrite Includes_low22, !low22_fields.
  pose proof (module_range a). pose proof (module_range b).
  split; [intros H1; split; lia | intros [-> ->]; reflexivity].
Qed.

(** X1.  [Result(module, description)] keeps the low 9 bits of the
    module and the low 13 bits of the description, whatever is passed:
    the word is [module mod 512 + 512 * (description mod 8192)], it is
    below [2^22], and the fields read back the truncated arguments. *)
Theorem Result_of_fields_truncates (m d : Z) :
  raw (Result_of_fields m d) = m mod 2 ^ 9 + 2 ^ 9 * (d mod 2 ^ 13)
  /\ 0 <= raw (Result_of_fields m d) < 2 ^ 22
  /\ module (Result_of_fields m d) = m mod 2 ^ 9
  /\ description (Result_of_fields m d) = d mod 2 ^ 13
  /\ Result_of_fields (m mod 2 ^ 9) (d mod 2 ^ 13) = Result_of_fields m d.
Proof.
  split; [apply raw_of_fields_sum|].
  split; [apply raw_of_fields_range|].
  split; [apply module_of_fields|].
  split; [apply description_of_fields|].
  rewrite (Result_eta (Result_of_fields m d)),
    (Result_eta (Result_of_fields (m mod 2 ^ 9) (d mod 2 ^ 13))).
  rewrite !raw_of_fields_sum, !Z.mod_mod by lia. reflexivity.
Qed.

(** X2.  Two (module, description) pairs build the same [Result] exactly
    when the modules agree modulo 512 and the descriptions agree modulo
    8192; on pairs within the field ranges the constructor is
    injective. *)
Theorem Result_of_fields_collide (m d m' d' : Z) :
  (Result_of_fields m d = Result_of_fields m' d'
   <-> m mod 2 ^ 9 = m' mod 2 ^ 9 /\ d mod 2 ^ 13 = d' mod 2 ^ 13)
  /\ (0 <= m <= 511 -> 0 <= m' <= 511 -> 0 <= d <= 8191 -> 0 <= d' <= 8191 ->
      Result_of_fields m d = Result_of_fields m' d' -> m = m' /\ d = d').
Proof.
  assert (Hiff : Result_of_fields m d = Result_of_fields m' d'
                 <-> m mod 2 ^ 9 = m' mod 2 ^ 9 /\ d mod 2 ^ 13 = d' mod 2 ^ 13).
  { split.
    - intros H.
      pose proof (f_equal module H) as Hm.
      pose proof (f_equal description H) as Hd.
      rewrite !module_of_fields in Hm. rewrite !description_of_fields in Hd.
      split; assumption.
    - intros [Hm Hd].
      rewrite (Result_eta (Result_of_fields m d)), (Result_eta (Result_of_fields m' d')).
      now rewrite !raw_of_fields_sum, Hm, Hd. }
  split; [exact Hiff|].
  intros Hm Hm' Hd Hd' H. apply Hiff in H.
  rewrite !Z.mod_small in H by lia. exact H.
Qed.

Lemma Result_of_fields_collide_witness :
  ErrorModule.FS = 2 /\ 42 = 42.
Proof.
  apply (proj2 (Result_of_fields_collide ErrorModule.FS 42 2 42));
    unfold ErrorModule.FS; solve [lia | reflexivity].
Defined.

(** X3.  Building a [Result] again from the two fields of [r] gives the
    word [GetInnerValue] computes, the low 22 bits of [r.raw]; it is
    included by [r], and it is [r] itself when bits 22..31 of [r.raw]
    are zero. *)
Theorem Result_repack (r : Result) :
  raw (Result_of_fields (module r) (description r)) = GetInnerValue r
  /\ GetInnerValue r = raw r mod 2 ^ 22
  /\ Includes r (Result_of_fields (module r) (description r)) = true
  /\ (0 <= raw r < 2 ^ 22 -> Result_of_fields (module r) (description r) = r).
Proof.
  assert (H : raw (Result_of_fields (module r) (description r)) = raw r mod 2 ^ 22).
  { rewrite raw_of_fields_sum, low22_fields.
    rewrite !Z.mod_small by (apply module_range || apply description_range).
    reflexivity. }
  split; [now rewrite GetInnerValue_low22|].
  split; [apply GetInnerValue_low22|].
  split.
  - apply Includes_low22. rewrite H. now rewrite Z.mod_mod by lia.
  - intros Hr. rewrite (Result_eta r) at 3.
    rewrite (Result_eta (Result_of_fields _ _)), H, Z.mod_small by assumption.
    reflexivity.
Qed.

Lemma Result_repack_witness :
  Result_of_fields (module (Result_of_raw 21506)) (description (Result_of_raw 21506))
  = Result_of_raw 21506.
Proof.
  apply (proj2 (proj2 (proj2 (Result_repack (Result_of_raw 21506))))).
  cbn. lia.
Defined.

(** X4.  [operator==] holds exactly for equal words and [operator!=] is
    its negation; [Includes] is an equivalence relation (reflexive,
    symmetric, transitive) that [operator==] implies. *)
Theorem Result_Includes_equivalence :
  (forall a b, Result_eqb a b = true <-> a = b)
  /\ (forall a b, Result_neqb a b = true <-> a <> b)
  /\ (forall a, Includes a a = true)
  /\ (forall a b, Includes a b = Includes b a)
  /\ (forall a b c, Includes a b = true -> Includes b c = true -> Includes a c = true)
  /\ (forall a b, Result_eqb a b = true -> Includes a b = true).
Proof.
  assert (Heq : forall a b, Result_eqb a b = true <-> a = b).
  { intros a b. split; [apply Result_eqb_eq|].
    intros ->. unfold Result_eqb. apply Z.eqb_refl. }
  split; [exact Heq|].
  split.
  { intros a b. unfold Result_neqb. rewrite negb_true_iff, <- Heq.
    destruct (Result_eqb a b); split; congruence. }
  split; [intros a; apply Includes_low22; reflexivity|].
  split; [intros a b; unfold Includes; apply Z.eqb_sym|].
  split.
  { intros a b c Hab Hbc. apply Includes_low22.
    apply Includes_low22 in Hab. apply Includes_low22 in Hbc. congruence. }
  intros a b H. apply Heq in H. subst b. apply Includes_low22. reflexivity.
Qed.

Lemma Result_Includes_equivalence_witness :
  Includes (Result_of_raw 21506) (Result_of_raw 21506) = true.
Proof.
  destruct Result_Includes_equivalence as (_ & _ & _ & _ & _ & H).
  apply H. reflexivity.
Defined.

(** X5.  [Includes] does not look at bits 22..31: [r] includes every
    word that differs from [r.raw] by a multiple of [2^22], although
    [operator==] tells them apart. *)
Theorem Result_Includes_ignores_high_bits (r : Result) (k : Z) :
  Includes r (Result_of_raw (raw r + k * 2 ^ 22)) = true
  /\ (k <> 0 -> Result_eqb r (Result_of_raw (raw r + k * 2 ^ 22)) = false).
Proof.
  split.
  - apply Includes_low22. cbn [raw]. now rewrite Z.mod_add by lia.
  - intros Hk. unfold Result_eqb. cbn [raw]. apply Z.eqb_neq.
    change (2 ^ 22) with 4194304. lia.
Qed.

Lemma Result_Includes_ignores_high_bits_witness :
  Result_eqb (Result_of_raw 21506) (Result_of_raw (21506 + 1 * 2 ^ 22)) = false.
Proof.
  apply (proj2 (Result_Includes_ignores_high_bits (Result_of_raw 21506) 1)).
  discriminate.
Defined.

(** X6.  [ResultUnknown] is a failure that [Result(module, description)]
    never builds; it includes [Result(m, d)] exactly when both fields
    are all ones, that is [m] is 511 modulo 512 and [d] is 8191 modulo
    8192. *)
Theorem ResultUnknown_not_constructed (m d : Z) :
  IsFailure ResultUnknown = true
  /\ Result_eqb (Result_of_fields m d) ResultUnknown = false
  /\ (Includes ResultUnknown (Result_of_fields m d) = true
      <-> m mod 2 ^ 9 = 511 /\ d mod 2 ^ 13 = 8191).
Proof.
  split; [reflexivity|].
  split.
  - unfold Result_eqb. apply Z.eqb_neq.
    pose proof (raw_of_fields_range m d) as H. cbn [raw ResultUnknown].
    change (2 ^ 22) with 4194304 in H. change (2 ^ 32 - 1) with 4294967295. lia.
  - rewrite Includes_low22.
    rewrite (Z.mod_small (raw (Result_of_fields m d))) by apply raw_of_fields_range.
    rewrite raw_of_fields_sum.
    change (raw ResultUnknown mod 2 ^ 22) with 4194303.
    pose proof (Z.mod_pos_bound m (2 ^ 9) ltac:(lia)).
    pose proof (Z.mod_pos_bound d (2 ^ 13) ltac:(lia)).
    change (2 ^ 9) with 512 in *. change (2 ^ 13) with 8192 in *. lia.
Qed.

Lemma ResultUnknown_not_constructed_witness :
  Includes ResultUnknown (Result_of_fields 511 8191) = true.
Proof.
  apply (proj2 (proj2 (ResultUnknown_not_constructed 511 8191))).
  split; reflexivity.
Defined.

(** X7.  Distinct enumerators of [ErrorModule] never share a module
    field, although four of them do not fit it: the field reads back
    the enumerator exactly when it is at most 511, and reads back 512
    less for [GeneralWebApplet], [WifiWebAuthApplet],
    [WhitelistedApplet] and [ShopN]. *)
Theorem ErrorModule_enumerators_fields (m m' d d' : Z) :
  In m ErrorModule.enumerators ->
  In m' ErrorModule.enumerators ->
  (module (Result_of_fields m d) = module (Result_of_fields m' d') -> m = m')
  /\ (module (Result_of_fields m d) = m <-> m <= 511)
  /\ (511 < m ->
      module (Result_of_fields m d) = m - 512
      /\ In m [ErrorModule.GeneralWebApplet; ErrorModule.WifiWebAuthApplet;
               ErrorModule.WhitelistedApplet; ErrorModule.ShopN]).
Proof.
  intros Hm Hm'. rewrite !module_of_fields.
  assert (Hinj : forallb (fun x => forallb (fun y =>
                    implb (x mod 2 ^ 9 =? y mod 2 ^ 9) (x =? y))
                    ErrorModule.enumerators) ErrorModule.enumerators = true)
    by (vm_compute; reflexivity).
  assert (Hlow : forallb (fun x =>
                    (0 <=? x) && ((x <=? 511)
                    || ((x <? 1024) && existsb (Z.eqb x)
                          [ErrorModule.GeneralWebApplet; ErrorModule.WifiWebAuthApplet;
                           ErrorModule.WhitelistedApplet; ErrorModule.ShopN])))
                    ErrorModule.enumerators = true)
    by (vm_compute; reflexivity).
  rewrite forallb_forall in Hinj, Hlow.
  specialize (Hlow m Hm).
  apply andb_true_iff in Hlow. destruct Hlow as [H0 Hcase]. apply Z.leb_le in H0.
  split; [|split].
  - intros Heq. specialize (Hinj m Hm). rewrite forallb_forall in Hinj.
    specialize (Hinj m' Hm'). rewrite Heq, Z.eqb_refl in Hinj. cbn in Hinj.
    now apply Z.eqb_eq.
  - split.
    + intros Heq. pose proof (Z.mod_pos_bound m (2 ^ 9) ltac:(lia)) as Hb.
      change (2 ^ 9) with 512 in *. lia.
    + intros Hle. apply Z.mod_small. change (2 ^ 9) with 512. lia.
  - intros Hbig. apply orb_true_iff in Hcase.
    destruct Hcase as [Hle | Hhigh]; [apply Z.leb_le in Hle; lia|].
    apply andb_true_iff in Hhigh. destruct Hhigh as [Hlt Hin].
    apply Z.ltb_lt in Hlt. split.
    + change (2 ^ 9) with 512.
      rewrite <- (Z.mod_small (m - 512) 512) by lia.
      replace m with (m - 512 + 1 * 512) at 1 by lia.
      apply Z.mod_add. lia.
    + apply existsb_exists in Hin. destruct Hin as (x & Hx & Hmx).
      apply Z.eqb_eq in Hmx. now subst x.
Qed.

Lemma ErrorModule_enumerators_fields_witness :
  module (Result_of_fields ErrorModule.ShopN 7) = ErrorModule.ShopN - 512.
Proof.
  destruct (ErrorModule_enumerators_fields ErrorModule.ShopN ErrorModule.FS 7 0)
    as (_ & _ & H).
  - vm_compute. tauto.
  - vm_compute. tauto.
  - apply H. vm_compute. reflexivity.
Defined.

End ResultWord.

(** * Further properties of ResultRange *)

Section ResultRangeFacts.

Lemma ResultRange_Includes_iff (range : ResultRange) (r : Result) :
  ResultRange_Includes range r = true
  <-> module (code range) = module r
      /\ description (code range) <= description r <= description_end range.
Proof.
  unfold ResultRange_Includes.
  rewrite !andb_true_iff, Z.eqb_eq, !Z.leb_le. tauto.
Qed.

(** X8.  A range includes the [Result] it converts to exactly when it is
    not empty, that is when its (truncated) lower bound is at most its
    upper bound; an empty range includes no [Result] at all. *)
Theorem ResultRange_includes_own_code (M lo hi : Z) :
  ResultRange_Includes (ResultRange_of M lo hi)
    (ResultRange_to_Result (ResultRange_of M lo hi)) = (lo mod 2 ^ 13 <=? hi)
  /\ (hi < lo mod 2 ^ 13 ->
      forall r, ResultRange_Includes (ResultRange_of M lo hi) r = false)
  /\ (0 <= lo <= 8191 -> lo <= hi ->
      ResultRange_Includes (ResultRange_of M lo hi)
        (ResultRange_to_Result (ResultRange_of M lo hi)) = true).
Proof.
  assert (Hown : ResultRange_Includes (ResultRange_of M lo hi)
                   (ResultRange_to_Result (ResultRange_of M lo hi))
                 = (lo mod 2 ^ 13 <=? hi)).
  { apply Bool.eq_iff_eq_true.
    rewrite ResultRange_Includes_truncated, Z.leb_le.
    unfold ResultRange_to_Result, ResultRange_of. cbn [code].
    rewrite module_of_fields, description_of_fields. lia. }
  split; [exact Hown|]. split.
  - intros Hempty r.
    destruct (ResultRange_Includes (ResultRange_of M lo hi) r) eqn:H; [|reflexivity].
    apply ResultRange_Includes_truncated in H. lia.
  - intros Hlo Hle. rewrite Hown. apply Z.leb_le.
    rewrite Z.mod_small by lia. exact Hle.
Qed.

Lemma ResultRange_includes_own_code_witness :
  ResultRange_Includes (ResultRange_of ErrorModule.FS 10 20)
    (ResultRange_to_Result (ResultRange_of ErrorModule.FS 10 20)) = true
  /\ ResultRange_Includes (ResultRange_of ErrorModule.FS 20 10)
       (Result_of_fields ErrorModule.FS 15) = false.
Proof.
  split.
  - apply (proj2 (proj2 (ResultRange_includes_own_code ErrorModule.FS 10 20))); lia.
  - apply (proj1 (proj2 (ResultRange_includes_own_code ErrorModule.FS 20 10))).
    vm_compute. reflexivity.
Defined.

(** X9.  Raising the upper bound of a range only adds [Result]s to it,
    and a range reduced to one description [d] in [0, 8191] includes
    exactly what [Result(M, d).Includes] accepts. *)
Theorem ResultRange_grows_and_single_point (M lo hi hi' d : Z) (r : Result) :
  (hi <= hi' ->
   ResultRange_Includes (ResultRange_of M lo hi) r = true ->
   ResultRange_Includes (ResultRange_of M lo hi') r = true)
  /\ (0 <= d <= 8191 ->
      ResultRange_Includes (ResultRange_of M d d) r
      = Includes (Result_of_fields M d) r).
Proof.
  split.
  - intros Hle H. apply ResultRange_Includes_truncated.
    apply ResultRange_Includes_truncated in H. lia.
  - intros Hd. apply Bool.eq_iff_eq_true.
    rewrite ResultRange_Includes_truncated, Includes_fields_eq.
    rewrite module_of_fields, description_of_fields.
    rewrite (Z.mod_small d) by lia.
    split; [intros [Hm Hr]; split; [congruence | lia]
           | intros [Hm Hr]; split; [congruence | lia]].
Qed.

Lemma ResultRange_grows_and_single_point_witness :
  ResultRange_Includes (ResultRange_of ErrorModule.FS 10 30)
    (Result_of_fields ErrorModule.FS 15) = true
  /\ ResultRange_Includes (ResultRange_of ErrorModule.FS 15 15)
       (Result_of_fields ErrorModule.FS 15)
     = Includes (Result_of_fields ErrorModule.FS 15) (Result_of_fields ErrorModule.FS 15).
Proof.
  destruct (ResultRange_grows_and_single_point ErrorModule.FS 10 20 30 15
              (Result_of_fields ErrorModule.FS 15)) as [Hgrow Hpoint].
  split; [apply Hgrow; [lia | reflexivity] | apply Hpoint; lia].
Defined.

(** X10.  Membership in a range depends on the two fields only: two
    [Result]s that [Includes] each other are in the same ranges, so the
    bits 22..31 of a word never matter to a range. *)
Theorem ResultRange_Includes_respects_Includes (range : ResultRange) (a b : Result) :
  Includes a b = true ->
  ResultRange_Includes range a = ResultRange_Includes range b.
Proof.
  intros H. apply Includes_fields_eq in H. destruct H as [Hm Hd].
  unfold ResultRange_Includes. now rewrite Hm, Hd.
Qed.

Lemma ResultRange_Includes_respects_Includes_witness :
  ResultRange_Includes (ResultRange_of ErrorModule.FS 10 50) (Result_of_raw 21506)
  = ResultRange_Includes (ResultRange_of ErrorModule.FS 10 50)
      (Result_of_raw (21506 + 2 ^ 22)).
Proof.
  apply (ResultRange_Includes_respects_Includes
           (ResultRange_of ErrorModule.FS 10 50)
           (Result_of_raw 21506) (Result_of_raw (21506 + 2 ^ 22))).
  reflexivity.
Defined.

End ResultRangeFacts.

(** * Further properties of ResultVal *)

Section ResultValFacts.

Context {T : Type}.

(** X11.  A [ResultVal<T>] built from a [ResultRange] is in the failure
    state and its [Code()] is the range's [Result(M, lo)]; that code is
    [ResultSuccess] exactly when [M] is 0 modulo 512 and [lo] is 0
    modulo 8192, as for a range of [ErrorModule::Common] that starts
    at 0. *)
Theorem ResultVal_of_range_code (M lo hi : Z) :
  Failed (ResultVal_of_range (T := T) (ResultRange_of M lo hi)) = true
  /\ Succeeded (ResultVal_of_range (T := T) (ResultRange_of M lo hi)) = false
  /\ Code (ResultVal_of_range (T := T) (ResultRange_of M lo hi)) = Result_of_fields M lo
  /\ (Code (ResultVal_of_range (T := T) (ResultRange_of M lo hi)) = ResultSuccess
      <-> M mod 2 ^ 9 = 0 /\ lo mod 2 ^ 13 = 0)
  /\ (forall hi', Code (ResultVal_of_range (T := T)
                          (ResultRange_of ErrorModule.Common 0 hi')) = ResultSuccess).
Proof.
  split; [reflexivity|]. split; [reflexivity|]. split; [reflexivity|].
  split; [|reflexivity].
  unfold ResultVal_of_range, Code, ResultRange_to_Result, ResultRange_of.
  cbn [expected code].
  rewrite (Result_eta (Result_of_fields M lo)), raw_of_fields_sum.
  pose proof (Z.mod_pos_bound M (2 ^ 9) ltac:(lia)).
  pose proof (Z.mod_pos_bound lo (2 ^ 13) ltac:(lia)).
  unfold ResultSuccess. split.
  - intros H1. apply (f_equal raw) in H1. cbn [raw] in H1.
    change (2 ^ 9) with 512 in *. change (2 ^ 13) with 8192 in *. lia.
  - intros [-> ->]. reflexivity.
Qed.

(** X12.  The accessors of a [ResultVal<T>] agree with one another in
    every state: [Failed()] is the negation of [Succeeded()] and of the
    conversion to [bool]; [Unwrap()] yields a value exactly when
    [Succeeded()], and then [Code()] is [ResultSuccess] and [ValueOr]
    gives that value; otherwise [Unwrap()] fails its assertion and
    [ValueOr] gives the fallback; and a failing [Code()] implies
    [Failed()]. *)
Theorem ResultVal_accessors_coherent (rv : ResultVal T) (fallback : T) :
  Failed rv = negb (Succeeded rv)
  /\ to_bool rv = Succeeded rv
  /\ (Succeeded rv = true ->
      exists v, Unwrap rv = Ok v /\ ValueOr rv fallback = v
                /\ Code rv = ResultSuccess /\ rv = ResultVal_of_value v)
  /\ (Failed rv = true ->
      Unwrap rv = AssertionFailure "Tried to Unwrap empty ResultVal"
      /\ ValueOr rv fallback = fallback
      /\ rv = ResultVal_of_code (Code rv))
  /\ (IsFailure (Code rv) = true -> Failed rv = true).
Proof.
  destruct rv as [[v | e]]; cbn.
  - split; [reflexivity|]. split; [reflexivity|]. split.
    + intros _. exists v. repeat split.
    + split; [discriminate | discriminate].
  - split; [reflexivity|]. split; [reflexivity|]. split.
    + discriminate.
    + split; [intros _; repeat split | reflexivity].
Qed.

End ResultValFacts.

Lemma ResultVal_of_range_code_witness :
  Code (ResultVal_of_range (T := nat) (ResultRange_of 512 8192 9999)) = ResultSuccess.
Proof.
  apply (proj1 (proj2 (proj2 (proj2 (ResultVal_of_range_code (T := nat) 512 8192 9999))))).
  split; reflexivity.
Defined.

Lemma ResultVal_accessors_coherent_witness :
  exists v, Unwrap (ResultVal_of_value 7%nat) = Ok v
            /\ ValueOr (ResultVal_of_value 7%nat) 0%nat = v
            /\ Code (ResultVal_of_value 7%nat) = ResultSuccess
            /\ ResultVal_of_value 7%nat = ResultVal_of_value v.
Proof.
  apply (proj1 (proj2 (proj2 (ResultVal_accessors_coherent
                                (ResultVal_of_value 7%nat) 0%nat)))).
  reflexivity.
Defined.

(** * Further properties of the macros *)

Section MacroFacts.

(** X13.  [R_UNLESS(expr, res)] returns [res] exactly when [expr] is
    false, whatever [res] is, and goes on otherwise; [R_SUCCEED_IF(expr)]
    returns [ResultSuccess] exactly when [expr] is true and goes on
    otherwise; both store what they return in the current result
    reference, as [R_SUCCEED()] does. *)
Theorem R_UNLESS_R_SUCCEED_IF (expr : bool) (res : Result) (k : statements)
    (sc : scope) (fr : frame) :
  exec_block (R_UNLESS expr res k) sc fr
  = (if expr then exec_block k sc fr
     else (Returned res, leave sc (update (current sc) res fr)))
  /\ exec_block (R_SUCCEED_IF expr k) sc fr
     = (if expr
        then (Returned ResultSuccess, leave sc (update (current sc) ResultSuccess fr))
        else exec_block k sc fr)
  /\ exec_block (R_SUCCEED_IF expr k) sc fr
     = (if expr then exec_block (R_SUCCEED k) sc fr else exec_block k sc fr)
  /\ exec_block (R_UNLESS expr res k) sc fr
     = (if expr then exec_block k sc fr else exec_block (R_THROW res k) sc fr).
Proof.
  destruct expr; repeat split.
Qed.

(** X14.  [R_TRY] and [CASCADE_CODE] leave a function in the same way
    and are the same statement in a function that has declared no
    result reference; they differ under a declared one, where on a
    failure [R_TRY] stores the returned code in the referenced local and
    [CASCADE_CODE] leaves the locals untouched. *)
Theorem R_TRY_CASCADE_CODE (res : Result) (k : statements) (sc : scope) (fr : frame) :
  fst (exec_block (R_TRY res k) sc fr) = fst (exec_block (CASCADE_CODE res k) sc fr)
  /\ (current sc = GlobalConst ->
      exec_block (R_TRY res k) sc fr = exec_block (CASCADE_CODE res k) sc fr)
  /\ (IsSuccess res = true ->
      exec_block (R_TRY res k) sc fr = exec_block (CASCADE_CODE res k) sc fr)
  /\ (forall cell, current sc = Ref cell -> IsFailure res = true ->
        store (snd (exec_block (R_TRY res k) sc fr)) = write cell res (store fr)
        /\ store (snd (exec_block (CASCADE_CODE res k) sc fr)) = store fr).
Proof.
  unfold exec_block, R_TRY, CASCADE_CODE, R_FAILED, IsError.
  change (negb (IsSuccess res)) with (IsFailure res).
  unfold IsFailure.
  destruct (IsSuccess res) eqn:Hs; cbn [negb exec R_THROW R_RETURN enter].
  - split; [reflexivity|]. split; [reflexivity|]. split; [reflexivity|].
    intros cell _ H. discriminate H.
  - rewrite !leave_enter. change (current (enter (enter sc))) with (current sc).
    cbn [fst snd].
    split; [reflexivity|]. split; [|split].
    + intros ->. reflexivity.
    + discriminate.
    + intros cell Hc _. rewrite !store_leave, Hc. split; reflexivity.
Qed.

Lemma R_TRY_CASCADE_CODE_witness :
  exec_block (R_TRY (Result_of_fields ErrorModule.FS 42) End)
    (Build_scope GlobalConst false []) (Build_frame [] [])
  = exec_block (CASCADE_CODE (Result_of_fields ErrorModule.FS 42) End)
      (Build_scope GlobalConst false []) (Build_frame [] [])
  /\ store (snd (exec_block (R_TRY (Result_of_fields ErrorModule.FS 42) End)
                   (Build_scope (Ref 0) true []) (Build_frame [ResultSuccess] [])))
     = write 0 (Result_of_fields ErrorModule.FS 42) [ResultSuccess].
Proof.
  split.
  - apply (proj1 (proj2 (R_TRY_CASCADE_CODE (Result_of_fields ErrorModule.FS 42) End
                           (Build_scope GlobalConst false []) (Build_frame [] [])))).
    reflexivity.
  - apply (proj2 (proj2 (proj2 (R_TRY_CASCADE_CODE (Result_of_fields ErrorModule.FS 42)
                                  End (Build_scope (Ref 0) true [])
                                  (Build_frame [ResultSuccess] [])))) 0%nat);
      reflexivity.
Defined.

Lemma filter_exit_among_pair (f g : action) (evs : list event) :
  filter (exit_of f) evs = [] ->
  filter (exit_of g) evs = [] ->
  filter (exit_among [f; g]) evs = [].
Proof.
  induction evs as [| e evs IH]; cbn [filter]; [reflexivity|].
  unfold exit_among at 1. cbn [existsb].
  destruct (exit_of f e); [discriminate|].
  destruct (exit_of g e); [discriminate|].
  cbn. exact IH.
Qed.

(** X15.  A failure guard and a success guard registered one after the
    other in one block ([ON_RESULT_FAILURE] then [ON_RESULT_SUCCESS_2])
    are bound to the same [Result] local.  When the block is left by an
    [R_RETURN] / [R_THROW] executed while the current result reference
    is that of the two guards (not under an [ON_RESULT_FAILURE] /
    [ON_RESULT_SUCCESS] of a nested block), they are destroyed in
    reverse order of registration, both see the returned [Result], and
    exactly one of the two closures is called. *)
Theorem guard_pair_exactly_one (f g : action) (k : statements)
    (sc : scope) (fr : frame) (r : Result) (fr' : frame) :
  f <> g ->
  declared_here sc = false ->
  registers f k = false ->
  registers g k = false ->
  Forall (fun g0 => m_f g0 <> f) (guards sc) ->
  Forall (fun g0 => m_f g0 <> g) (guards sc) ->
  exec_block (ON_RESULT_FAILURE f (ON_RESULT_SUCCESS_2 g k)) sc fr = (Returned r, fr') ->
  return_reference (ON_RESULT_FAILURE f (ON_RESULT_SUCCESS_2 g k)) sc fr
  = Some (Ref (next_reference sc fr)) ->
  exists evs,
    trace fr' = trace fr ++ evs
    /\ filter (exit_among [f; g]) evs
       = [GuardExit (Build_ScopedResultGuard EvaluateResultSuccess
                       (next_reference sc fr) g) r (IsSuccess r);
          GuardExit (Build_ScopedResultGuard EvaluateResultFailure
                       (next_reference sc fr) f) r (IsFailure r)]
    /\ xorb (IsSuccess r) (IsFailure r) = true.
Proof.
  intros Hfg Hdecl Hregf Hregg Holdf Holdg.
  unfold exec_block, ON_RESULT_FAILURE, ON_RESULT_FAILURE_2, ON_RESULT_SUCCESS_2.
  cbn [exec return_reference]. rewrite Hdecl. unfold declare.
  fold (next_reference sc fr).
  set (bound := next_reference sc fr).
  set (st1 := store fr ++ _).
  cbn [current declared_here guards].
  set (gf := Build_ScopedResultGuard EvaluateResultFailure bound f).
  set (gg := Build_ScopedResultGuard EvaluateResultSuccess bound g).
  destruct (exec k _ _) as [[fl0 sc'] frk] eqn:Hex.
  intros Heq Href. injection Heq as -> <-.
  pose proof Hex as Hexf. pose proof Hex as Hexg.
  eapply (exec_other_closures f k) in Hexf; [|assumption].
  eapply (exec_other_closures g k) in Hexg; [|assumption].
  destruct Hexf as ((gs & Hg & Hallf) & (evs & Ht & Hff)).
  destruct Hexg as ((gs' & Hg' & Hallg) & (evs' & Ht' & Hfg')).
  cbn [guards store trace] in Hg, Hg', Ht, Ht'.
  assert (gs' = gs) by (rewrite Hg in Hg'; now apply app_inv_tail in Hg'). subst gs'.
  assert (evs' = evs) by (rewrite Ht in Ht'; now apply app_inv_head in Ht'). subst evs'.
  assert (Hread : read bound (store frk) = r).
  { eapply (exec_return_reference bound k); [exact Hex | exact Href |].
    cbn [store]. unfold st1. rewrite length_app. cbn.
    unfold bound, next_reference. destruct (current sc); lia. }
  exists (evs ++ exits (store frk) (guards sc')).
  split; [|split].
  - rewrite trace_leave, Ht, <- app_assoc. reflexivity.
  - rewrite filter_app, (filter_exit_among_pair f g evs Hff Hfg'), Hg.
    change (gg :: gf :: guards sc) with ([gg; gf] ++ guards sc).
    rewrite !exits_app, !filter_app.
    rewrite (filter_exit_among_pair f g (exits (store frk) gs))
      by (apply filter_exits_other; assumption).
    rewrite (filter_exit_among_pair f g (exits (store frk) (guards sc)))
      by (apply filter_exits_other; assumption).
    rewrite app_nil_r. cbn [app exits map filter].
    unfold exit_among. cbn [existsb exit_of m_f gg gf m_ref EvaluateResult].
    rewrite !String.eqb_refl, orb_true_r. cbn [orb]. rewrite Hread. reflexivity.
  - unfold IsFailure. now destruct (IsSuccess r).
Qed.

Lemma guard_pair_exactly_one_witness :
  exists evs,
    trace (snd (exec_block
                  (ON_RESULT_FAILURE "rollback"
                     (ON_RESULT_SUCCESS_2 "commit"
                        (Block (ON_RESULT_FAILURE "inner" (Stmt "work" End))
                           (R_TRY (Result_of_fields ErrorModule.FS 42)
                              (R_SUCCEED End)))))
                  (Build_scope GlobalConst false []) (Build_frame [] [])))
    = [] ++ evs
    /\ filter (exit_among ["rollback"%string; "commit"%string]) evs
       = [GuardExit (Build_ScopedResultGuard EvaluateResultSuccess 1 "commit")
            (Result_of_fields ErrorModule.FS 42)
            (IsSuccess (Result_of_fields ErrorModule.FS 42));
          GuardExit (Build_ScopedResultGuard EvaluateResultFailure 1 "rollback")
            (Result_of_fields ErrorModule.FS 42)
            (IsFailure (Result_of_fields ErrorModule.FS 42))]
    /\ xorb (IsSuccess (Result_of_fields ErrorModule.FS 42))
            (IsFailure (Result_of_fields ErrorModule.FS 42)) = true.
Proof.
  apply (guard_pair_exactly_one "rollback" "commit"
           (Block (ON_RESULT_FAILURE "inner" (Stmt "work" End))
              (R_TRY (Result_of_fields ErrorModule.FS 42) (R_SUCCEED End)))
           (Build_scope GlobalConst false []) (Build_frame [] [])).
  - discriminate.
  - reflexivity.
  - reflexivity.
  - reflexivity.
  - constructor.
  - constructor.
  - reflexivity.
  - reflexivity.
Defined.

(** X16.  In any function built from the macros that returns [r0]: a
    failure guard that called its closure saw exactly [r0], which is a
    failure; when [r0] is a success every success guard called its
    closure; and a success guard that did not call its closure saw
    exactly [r0], which is a failure. *)
Theorem guard_calls_follow_return (body : statements) (r0 : Result)
    (tr : list event) (g : ScopedResultGuard) (seen : Result) (called : bool) :
  macro_expansion body = true ->
  call body = (Returned r0, tr) ->
  In (GuardExit g seen called) tr ->
  (EvaluateResult g = EvaluateResultFailure -> called = true ->
   seen = r0 /\ IsFailure r0 = true)
  /\ (EvaluateResult g = EvaluateResultSuccess -> IsSuccess r0 = true ->
      seen = ResultSuccess /\ called = true)
  /\ (EvaluateResult g = EvaluateResultSuccess -> called = false ->
      seen = r0 /\ IsFailure r0 = true).
Proof.
  intros Hm Hcall Hin.
  pose proof (call_macro_expansion body r0 tr Hm Hcall) as Hall.
  rewrite Forall_forall in Hall. specialize (Hall _ Hin).
  cbn in Hall. destruct Hall as [Hc Hs]. subst called.
  split; [|split].
  - intros -> Hcalled. unfold EvaluateResultFailure, R_FAILED in Hcalled.
    destruct Hs as [-> | ->]; [discriminate Hcalled | auto].
  - intros -> Hr0. apply IsSuccess_raw in Hr0.
    assert (r0 = ResultSuccess) by (rewrite (Result_eta r0), Hr0; reflexivity).
    subst r0. destruct Hs as [-> | ->]; split; reflexivity.
  - intros -> Hcalled.
    unfold EvaluateResultSuccess, R_SUCCEEDED in Hcalled.
    destruct Hs as [-> | ->]; [discriminate Hcalled|].
    split; [reflexivity|]. unfold IsFailure. now rewrite Hcalled.
Qed.

Lemma guard_calls_follow_return_witness :
  Result_of_fields ErrorModule.FS 42 = Result_of_fields ErrorModule.FS 42
  /\ IsFailure (Result_of_fields ErrorModule.FS 42) = true.
Proof.
  apply (proj1 (guard_calls_follow_return
                  (ON_RESULT_FAILURE "rollback"
                     (R_TRY (Result_of_fields ErrorModule.FS 42) (R_SUCCEED End)))
                  (Result_of_fields ErrorModule.FS 42)
                  [GuardExit (Build_ScopedResultGuard EvaluateResultFailure 1 "rollback")
                     (Result_of_fields ErrorModule.FS 42) true]
                  (Build_ScopedResultGuard EvaluateResultFailure 1 "rollback")
                  (Result_of_fields ErrorModule.FS 42) true
                  eq_refl eq_refl (or_introl eq_refl)));
    reflexivity.
Defined.

(** X17.  As long as no [R_RETURN] was executed the [Result] locals of
    an activation all hold [ResultSuccess]; a block that then runs to
    its closing brace leaves them so, and every guard destroyed on the
    way saw [ResultSuccess]: the success guards called their closures
    and the failure guards did not. *)
Theorem block_end_sees_ResultSuccess (c : statements) (sc : scope)
    (fr fr' : frame) :
  macro_expansion c = true ->
  Forall (fun v => v = ResultSuccess) (store fr) ->
  exec_block c sc fr = (Next, fr') ->
  exists evs,
    trace fr' = trace fr ++ evs
    /\ Forall (fun v => v = ResultSuccess) (store fr')
    /\ (forall g seen called, In (GuardExit g seen called) evs ->
          seen = ResultSuccess
          /\ called = EvaluateResult g ResultSuccess
          /\ (EvaluateResult g = EvaluateResultFailure -> called = false)
          /\ (EvaluateResult g = EvaluateResultSuccess -> called = true)).
Proof.
  intros Hm Hst. unfold exec_block.
  destruct (exec c sc fr) as [[fl sc'] frk] eqn:Hex.
  intros Heq. injection Heq as -> <-.
  destruct (exec_macro_expansion c _ _ _ _ _ Hm Hst Hex) as (evs & Ht & Hst' & Hev).
  exists (evs ++ exits (store frk) (guards sc')).
  split; [|split].
  - rewrite trace_leave, Ht, <- app_assoc. reflexivity.
  - now rewrite store_leave.
  - intros g seen called Hin.
    assert (Hall : Forall (sees ResultSuccess) (evs ++ exits (store frk) (guards sc'))).
    { apply Forall_app. split; [exact Hev|].
      apply sees_exits. now apply all_success_weaken. }
    rewrite Forall_forall in Hall. specialize (Hall _ Hin). cbn in Hall.
    destruct Hall as [Hc Hs].
    assert (seen = ResultSuccess) by (destruct Hs; assumption). subst seen.
    split; [reflexivity|]. split; [exact Hc|].
    split; intros Hk; rewrite Hc, Hk; reflexivity.
Qed.

Lemma block_end_sees_ResultSuccess_witness :
  exists evs,
    trace (snd (exec_block (ON_RESULT_FAILURE "undo" (R_TRY ResultSuccess End))
                  (Build_scope GlobalConst false []) (Build_frame [] [])))
    = [] ++ evs
    /\ Forall (fun v => v = ResultSuccess)
         (store (snd (exec_block (ON_RESULT_FAILURE "undo" (R_TRY ResultSuccess End))
                        (Build_scope GlobalConst false []) (Build_frame [] []))))
    /\ (forall g seen called, In (GuardExit g seen called) evs ->
          seen = ResultSuccess
          /\ called = EvaluateResult g ResultSuccess
          /\ (EvaluateResult g = EvaluateResultFailure -> called = false)
          /\ (EvaluateResult g = EvaluateResultSuccess -> called = true)).
Proof.
  apply (block_end_sees_ResultSuccess
           (ON_RESULT_FAILURE "undo" (R_TRY ResultSuccess End))
           (Build_scope GlobalConst false []) (Build_frame [] [])).
  - reflexivity.
  - constructor.
  - reflexivity.
Defined.

(** A return reference is the current one or one declared later. *)
Lemma return_reference_current_or_new (c : statements) :
  forall (sc : scope) (fr : frame) (ref : CurrentResultReference),
    return_reference c sc fr = Some ref ->
    ref = current sc
    \/ exists cell, ref = Ref cell /\ (List.length (store fr) <= cell)%nat.
Proof.
  induction c as [| a k IH | r0 | k IH | ev f' k IH | result k IH | body IHb k IHk];
    intros sc fr ref Href; cbn in Href.
  - discriminate Href.
  - apply IH in Href. exact Href.
  - discriminate Href.
  - destruct (declared_here sc); [discriminate Href|].
    cbn in Href. apply IH in Href. cbn [current store] in Href. right.
    destruct Href as [-> | (cell & -> & Hle)].
    + eexists. split; [reflexivity|]. destruct (current sc); lia.
    + exists cell. split; [reflexivity|]. rewrite length_app in Hle. lia.
  - destruct (current sc) eqn:Hcur; [discriminate Href|].
    apply IH in Href. cbn [current] in Href. exact Href.
  - destruct k as [| ? ? | r1 | ? | ? ? ? | ? ? | ? ?];
      try (apply IH in Href; rewrite length_update in Href; exact Href).
    destruct (Result_eqb result r1); [|discriminate Href].
    injection Href as <-. now left.
  - destruct (exec body (enter sc) fr) as [[flb scb] frb] eqn:Hb.
    destruct flb as [| r1 |].
    + apply IHk in Href. destruct Href as [-> | (cell & -> & Hle)]; [now left|].
      right. exists cell. split; [reflexivity|].
      rewrite store_leave in Hle. apply exec_store_length in Hb. lia.
    + apply IHb in Href. exact Href.
    + discriminate Href.
Qed.

(** X18.  A guard registered with [ON_RESULT_FAILURE] /
    [ON_RESULT_SUCCESS] in a block built from the macros, whose block
    is left by a [return] that is not an [R_RETURN] / [R_THROW] executed
    under the guard's own reference, sees the value its [Result] local
    was declared with (a copy of what the enclosing reference held,
    [ResultSuccess] when there was none) and not the returned [Result].
    This is what happens when the [return] comes from a nested block
    that starts with an [ON_RESULT_FAILURE] or [ON_RESULT_SUCCESS] of
    its own: the nested declaration binds the reference to a new local,
    so no return under it is a return under the enclosing reference. *)
Theorem nested_declaration_copies (f : action) (k : statements)
    (sc : scope) (fr : frame) (fl : flow) (fr' : frame) :
  declared_here sc = false ->
  registers f k = false ->
  Forall (fun g => m_f g <> f) (guards sc) ->
  macro_expansion k = true ->
  (exec_block (ON_RESULT_FAILURE f k) sc fr = (fl, fr') ->
   return_reference (ON_RESULT_FAILURE f k) sc fr <> Some (Ref (next_reference sc fr)) ->
   exists before after,
     trace fr' = trace fr ++ before
                 ++ GuardExit (Build_ScopedResultGuard EvaluateResultFailure
                                 (next_reference sc fr) f)
                      (initial_value sc fr) (IsFailure (initial_value sc fr)) :: after
     /\ filter (exit_of f) before = []
     /\ filter (exit_of f) after = [])
  /\ (exec_block (ON_RESULT_SUCCESS f k) sc fr = (fl, fr') ->
      return_reference (ON_RESULT_SUCCESS f k) sc fr <> Some (Ref (next_reference sc fr)) ->
      exists before after,
        trace fr' = trace fr ++ before
                    ++ GuardExit (Build_ScopedResultGuard EvaluateResultSuccess
                                    (next_reference sc fr) f)
                         (initial_value sc fr) (IsSuccess (initial_value sc fr)) :: after
        /\ filter (exit_of f) before = []
        /\ filter (exit_of f) after = [])
  /\ (forall (inner rest : statements) (sc1 : scope) (fr1 : frame) (cell : nat)
             (r : Result) (scb : scope) (frb : frame),
        current sc1 = Ref cell ->
        (cell < List.length (store fr1))%nat ->
        exec (DECLARE_CURRENT_RESULT_REFERENCE_AND_STORAGE inner) (enter sc1) fr1
        = (Returned r, scb, frb) ->
        return_reference (Block (DECLARE_CURRENT_RESULT_REFERENCE_AND_STORAGE inner) rest)
          sc1 fr1 <> Some (Ref cell)).
Proof.
  intros Hdecl Hreg Hold Hm.
  split; [|split].
  - intros Hex Href.
    destruct (guard_exit_once EvaluateResultFailure f k sc fr fl fr'
                Hdecl Hreg Hold Hex)
      as (seen & before & after & Ht & _ & _ & Hb & Ha & _ & _ & Hinit).
    rewrite (Hinit Hm Href) in Ht. exists before, after. auto.
  - intros Hex Href.
    destruct (guard_exit_once EvaluateResultSuccess f k sc fr fl fr'
                Hdecl Hreg Hold Hex)
      as (seen & before & after & Ht & _ & _ & Hb & Ha & _ & _ & Hinit).
    rewrite (Hinit Hm Href) in Ht. exists before, after. auto.
  - intros inner rest sc1 fr1 cell r scb frb Hcur Hlen Hex Href.
    cbn [return_reference] in Href. rewrite Hex in Href.
    apply return_reference_current_or_new in Href.
    cbn [return_reference enter declared_here] in Href.
    destruct Href as [Href | (cell' & Href & Hle)].
    + cbn in Href. rewrite Hcur in Href. injection Href as ->. lia.
    + injection Href as <-. cbn [store] in Hle. rewrite length_app in Hle. lia.
Qed.

(** In
    [ON_RESULT_FAILURE { outer }; { ON_RESULT_SUCCESS { inner };
     R_THROW(Result(FS, 42)); } R_SUCCEED();]
    the outer failure guard sees [ResultSuccess] and is not called. *)
Lemma nested_declaration_copies_witness :
  exists before after,
    trace (snd (exec_block
                  (ON_RESULT_FAILURE "outer"
                     (Block (ON_RESULT_SUCCESS "inner"
                               (R_THROW (Result_of_fields ErrorModule.FS 42) End))
                            (R_SUCCEED End)))
                  (Build_scope GlobalConst false []) (Build_frame [] [])))
    = [] ++ before
      ++ GuardExit (Build_ScopedResultGuard EvaluateResultFailure 1 "outer")
           ResultSuccess false :: after
    /\ filter (exit_of "outer") before = []
    /\ filter (exit_of "outer") after = [].
Proof.
  apply (proj1 (nested_declaration_copies "outer"
                  (Block (ON_RESULT_SUCCESS "inner"
                            (R_THROW (Result_of_fields ErrorModule.FS 42) End))
                         (R_SUCCEED End))
                  (Build_scope GlobalConst false []) (Build_frame [] [])
                  (Returned (Result_of_fields ErrorModule.FS 42))
                  (snd (exec_block
                          (ON_RESULT_FAILURE "outer"
                             (Block (ON_RESULT_SUCCESS "inner"
                                       (R_THROW (Result_of_fields ErrorModule.FS 42) End))
                                    (R_SUCCEED End)))
                          (Build_scope GlobalConst false []) (Build_frame [] [])))
                  eq_refl eq_refl (Forall_nil _) eq_refl)).
  - reflexivity.
  - discriminate.
Defined.

(** X19.  [CASCADE_RESULT] on a [ResultVal] in the failure state makes
    the enclosing block return [Code()] as it is, without storing it in
    the current result reference and without running what follows: the
    [Result(M, lo)] of a range, and [ResultSuccess] itself when that is
    the stored code, so that the caller is handed a success. *)
Theorem CASCADE_RESULT_returns_Code (T : Type) (source : ResultVal T)
    (k : T -> statements) (sc : scope) (fr : frame) :
  (Failed source = true ->
   exec_block (CASCADE_RESULT source k) sc fr = (Returned (Code source), leave sc fr)
   /\ store (snd (exec_block (CASCADE_RESULT source k) sc fr)) = store fr)
  /\ (forall M lo hi,
        exec_block (CASCADE_RESULT (ResultVal_of_range (ResultRange_of M lo hi)) k) sc fr
        = (Returned (Result_of_fields M lo), leave sc fr))
  /\ exec_block (CASCADE_RESULT (ResultVal_of_code ResultSuccess) k) sc fr
     = (Returned ResultSuccess, leave sc fr)
  /\ (forall v, source = ResultVal_of_value v ->
        exec_block (CASCADE_RESULT source k) sc fr = exec_block (k v) sc fr).
Proof.
  split; [|split; [|split]].
  - destruct source as [[v | e]]; cbn; [discriminate|].
    intros _. split; [reflexivity|]. apply store_leave.
  - reflexivity.
  - reflexivity.
  - intros v ->. reflexivity.
Qed.

Lemma CASCADE_RESULT_returns_Code_witness :
  exec_block (CASCADE_RESULT (ResultVal_of_code (T := nat)
                                (Result_of_fields ErrorModule.FS 42))
                (fun _ => Stmt "after" (R_SUCCEED End)))
    (Build_scope GlobalConst false []) (Build_frame [] [])
  = (Returned (Result_of_fields ErrorModule.FS 42), Build_frame [] []).
Proof.
  apply (proj1 (proj1 (CASCADE_RESULT_returns_Code nat
                         (ResultVal_of_code (Result_of_fields ErrorModule.FS 42))
                         (fun _ => Stmt "after" (R_SUCCEED End))
                         (Build_scope GlobalConst false []) (Build_frame [] []))
                  eq_refl)).
Defined.

End MacroFacts.
